(** * Yielding work gang and CMS lock verifier (HotSpot, jdk6)

    A shallow embedding of
    - [hotspot/src/share/vm/gc_implementation/concurrentMarkSweep/cmsLockVerifier.cpp]
    - [hotspot/src/share/vm/utilities/yieldingWorkgroup.hpp]
    together with the properties stated about them.

    Fallible code lives in the [Outcome] monad: a computation either returns a
    value or halts the VM with the message of the assertion that failed. *)

From Stdlib Require Import ZArith NArith Bool Ascii String List Lia.
From stdpp Require Import base option list gmap.

Local Open Scope string_scope.
Local Open Scope Z_scope.

(** ** Halting computations *)

Inductive Outcome (A : Type) : Type :=
| Returns (a : A)
| Fatal (msg : string).

Arguments Returns {A} a.
Arguments Fatal {A} msg.

Definition bind {A B : Type} (c : Outcome A) (k : A -> Outcome B) : Outcome B :=
  match c with
  | Returns a => k a
  | Fatal msg => Fatal msg
  end.

#[global] Instance Outcome_ret : MRet Outcome := fun A a => Returns a.
#[global] Instance Outcome_bind : MBind Outcome := fun A B k c => bind c k.

Definition passes {A : Type} (c : Outcome A) : Prop := exists a, c = Returns a.
Definition halts {A : Type} (c : Outcome A) : Prop := exists msg, c = Fatal msg.

(** Modelled from the spec: the macros [assert], [guarantee] and
    [ShouldNotReachHere] of utilities/debug.hpp are not among the sources.
    The spec has a violated assertion halt the process at once; the model is
    the debug build, in which [assert] is compiled in. *)
Definition assert (p : bool) (msg : string) : Outcome unit :=
  if p then Returns tt else Fatal msg.

Definition guarantee (p : bool) (msg : string) : Outcome unit :=
  if p then Returns tt else Fatal msg.

Definition ShouldNotReachHere {A : Type} : Outcome A := Fatal "ShouldNotReachHere()".

(** Pointers to threads: [None] is [NULL], [Some a] the thread at address [a]. *)
Definition ThreadPtr : Type := option nat.

Definition ptr_eqb (p q : ThreadPtr) : bool :=
  match p, q with
  | None, None => true
  | Some a, Some b => Nat.eqb a b
  | _, _ => false
  end.

(** ** The CMS lock verifier (cmsLockVerifier.cpp) *)

Module CMSLockVerifier.

(** What [assert_locked] reads of a thread: its address and the four
    virtual role predicates it calls on [Thread::current()]. *)
Record Thread : Type := mkThread {
  addr : nat;
  is_ConcurrentGC_thread : bool;
  is_VM_thread : bool;
  is_Java_thread : bool;
  is_GC_task_thread : bool
}.

(** Modelled from the spec: class [Mutex] (runtime/mutex.hpp) is not among
    the sources; a lock is what the verifier asks of it, its owner. *)
Record Mutex : Type := mkMutex { owner : ThreadPtr }.

(** The runtime state the function consults through static accessors. *)
Record Runtime : Type := mkRuntime {
  is_fully_initialized : bool;        (* Universe::is_fully_initialized() *)
  current : Thread;                   (* Thread::current() *)
  cmst : ThreadPtr;                   (* ConcurrentMarkSweepThread::cmst() *)
  vm_thread : ThreadPtr;              (* VMThread::vm_thread() *)
  cms_thread_has_cms_token : bool;
  vm_thread_has_cms_token : bool;
  ParallelGCThreads : N               (* uintx flag *)
}.

Definition self (rt : Runtime) : ThreadPtr := Some (addr (current rt)).

Definition is_locked (m : Mutex) : bool :=
  match owner m with Some _ => true | None => false end.

Definition owned_by_self (rt : Runtime) (m : Mutex) : bool :=
  ptr_eqb (owner m) (self rt).

(** Modelled from the spec: [assert_lock_strong] (runtime/mutexLocker.cpp)
    is not among the sources; the spec has it verify that the calling
    thread holds the lock. *)
Definition assert_lock_strong (rt : Runtime) (lock : Mutex) : Outcome unit :=
  assert (owned_by_self rt lock) "must own lock".

Definition is_null {A : Type} (p : option A) : bool :=
  match p with None => true | Some _ => false end.

(** [CMSLockVerifier::assert_locked(const Mutex* lock, const Mutex* p_lock)] *)
Definition assert_locked (rt : Runtime) (lock p_lock : option Mutex) : Outcome unit :=
  if negb (is_fully_initialized rt) then Returns tt
  else
    let myThread := current rt in
    match lock with
    | None =>
        assert (is_null p_lock) "Unexpected state" ;;
        (if is_ConcurrentGC_thread myThread then
           assert (ptr_eqb (self rt) (cmst rt))
                  "In CMS, CMS thread is the only Conc GC thread." ;;
           assert (cms_thread_has_cms_token rt)
                  "CMS thread should have CMS token"
         else if is_VM_thread myThread then
           assert (vm_thread_has_cms_token rt)
                  "VM thread should have CMS token"
         else
           assert (is_GC_task_thread myThread) "Unexpected thread type") ;;
        Returns tt
    | Some l =>
        if (ParallelGCThreads rt =? 0)%N then
          assert_lock_strong rt l
        else if is_VM_thread myThread
                || is_ConcurrentGC_thread myThread
                || is_Java_thread myThread then
          assert_lock_strong rt l ;;
          match p_lock with
          | Some p =>
              assert (negb (is_locked p) || owned_by_self rt p)
                     "Possible race between this and parallel GC threads"
          | None => Returns tt
          end
        else if is_GC_task_thread myThread then
          assert (ptr_eqb (owner l) (vm_thread rt)
                  || ptr_eqb (owner l) (cmst rt))
                 "Should be locked by VM thread or CMS thread on my behalf"
        else
          ShouldNotReachHere
    end.

(** Sample threads and runtimes used by the examples below. *)
Definition vm_t : Thread := mkThread 1 false true false false.
Definition cms_t : Thread := mkThread 2 true false false false.
Definition java_t : Thread := mkThread 3 false false true false.
Definition worker_t : Thread := mkThread 4 false false false true.
Definition other_t : Thread := mkThread 5 false false false false.

Definition runtime_of (init : bool) (t : Thread) (par : N) : Runtime :=
  mkRuntime init t (Some 2%nat) (Some 1%nat) true true par.

Definition held_by (t : Thread) : Mutex := mkMutex (Some (addr t)).
Definition unlocked : Mutex := mkMutex None.

End CMSLockVerifier.

(** ** The yielding work gang (yieldingWorkgroup.hpp) *)

Module YieldingWorkgroup.

(** [enum Status] *)
Inductive Status : Type :=
| INACTIVE
| ACTIVE
| YIELDING
| YIELDED
| ABORTING
| ABORTED
| COMPLETING
| COMPLETED.

#[global] Instance Status_eq_dec : EqDecision Status.
Proof. solve_decision. Defined.

(** [YieldingFlexibleWorkGang*]: [None] is [NULL]. *)
Definition GangPtr : Type := option nat.

(** [class YieldingFlexibleGangTask], its four data members. *)
Record YieldingFlexibleGangTask : Type := mkTask {
  _status : Status;
  _gang : GangPtr;
  _actual_size : Z;
  _requested_size : Z
}.

(** The constructor initialises [_status], [_gang] and [_requested_size];
    [_actual_size] is left as found in memory. *)
Definition new_task (uninitialised : Z) : YieldingFlexibleGangTask :=
  mkTask INACTIVE None uninitialised 0.

Definition set_status (s : Status) (t : YieldingFlexibleGangTask) :=
  mkTask s (_gang t) (_actual_size t) (_requested_size t).

Definition gang_of (t : YieldingFlexibleGangTask) : GangPtr := _gang t.

Definition is_NULL {A : Type} (p : option A) : bool :=
  match p with None => true | Some _ => false end.

Definition set_gang (gang : GangPtr) (t : YieldingFlexibleGangTask)
  : Outcome YieldingFlexibleGangTask :=
  assert (is_NULL (_gang t) || is_NULL gang) "Clobber without intermediate reset?" ;;
  Returns (mkTask (_status t) gang (_actual_size t) (_requested_size t)).

Definition status (t : YieldingFlexibleGangTask) : Status := _status t.

Definition yielded (t : YieldingFlexibleGangTask) : bool :=
  match _status t with YIELDED => true | _ => false end.
Definition completed (t : YieldingFlexibleGangTask) : bool :=
  match _status t with COMPLETED => true | _ => false end.
Definition aborted (t : YieldingFlexibleGangTask) : bool :=
  match _status t with ABORTED => true | _ => false end.
Definition active (t : YieldingFlexibleGangTask) : bool :=
  match _status t with ACTIVE => true | _ => false end.

Definition requested_size (t : YieldingFlexibleGangTask) : Z := _requested_size t.
Definition actual_size (t : YieldingFlexibleGangTask) : Z := _actual_size t.

Definition set_requested_size (sz : Z) (t : YieldingFlexibleGangTask) :=
  mkTask (_status t) (_gang t) (_actual_size t) sz.
Definition set_actual_size (sz : Z) (t : YieldingFlexibleGangTask) :=
  mkTask (_status t) (_gang t) sz (_requested_size t).

(** [YieldingFlexibleWorkGang::run_task]: always refused. *)
Definition run_task {G T : Type} (g : G) (task : T) : Outcome G :=
  guarantee false "Use start_task instead" ;; Returns g.

(** *** The gang, its workers and the tasks it runs

    The header declares the operations of the gang and gives its two
    counters with their accessors. The bodies of the operations
    (yieldingWorkgroup.cpp) and the base classes [AbstractWorkGang] and
    [GangWorker] (workgroup.hpp) are not among the sources: each definition
    below that stands for them says so and follows sections 2 to 5 of the
    spec. The counters are C ints; no operation of the model takes them out
    of the range from 0 to the number of workers. *)

(** Modelled from the spec: the worker loop of yieldingWorkgroup.cpp is
    missing. Where a worker is: at its waiting station (parked), released
    for a round and about to call [work], inside [work], or parked at its
    yield point inside the task's [yield]. *)
Inductive Station : Type :=
| WAITING
| RELEASED
| WORKING
| AT_YIELD.

#[global] Instance Station_eq_dec : EqDecision Station.
Proof. solve_decision. Defined.

(** Modelled from the spec: class [GangWorker] (workgroup.hpp) is missing.
    A worker is its station and the number of times it entered [work] in
    the current round; its index is its place in the gang. *)
Record GangWorker : Type := mkWorker {
  station : Station;
  work_calls : nat
}.

(** [class YieldingFlexibleWorkGang]: [_active_workers] and
    [_yielded_workers] are its own members; the others stand for the
    missing base class and for the threads of the gang. By the comment on
    the field, [_active_workers] is adjusted by the dispatch at each
    invocation, from the data of the task: it is the size of the active
    pool of the round, and the workers do not change it. *)
Record YieldingFlexibleWorkGang : Type := mkGang {
  this : nat;                   (* address of the gang *)
  _total_workers : Z;
  _task : option nat;           (* address of the task bound to the gang *)
  _active_workers : Z;
  _yielded_workers : Z;
  gang_workers : list GangWorker;
  overseer_waits : bool         (* the caller of start/continue is blocked *)
}.

Definition active_workers (g : YieldingFlexibleWorkGang) : Z := _active_workers g.
Definition yielded_workers (g : YieldingFlexibleWorkGang) : Z := _yielded_workers g.
Definition total_workers (g : YieldingFlexibleWorkGang) : Z := _total_workers g.

(** The gang together with the task objects it may be handed. *)
Record World : Type := mkWorld {
  gang : YieldingFlexibleWorkGang;
  heap : gmap nat YieldingFlexibleGangTask
}.

(** Modelled from the spec: the constructor
    [YieldingFlexibleWorkGang(name, workers, are_GC_task_threads)] is only
    declared. A new gang has all its workers parked and no task. *)
Definition new_gang (address : nat) (workers : Z) : YieldingFlexibleWorkGang :=
  mkGang address workers None 0 0
         (replicate (Z.to_nat workers) (mkWorker WAITING 0)) false.

Definition deref (w : World) (p : nat) : Outcome YieldingFlexibleGangTask :=
  match heap w !! p with
  | Some t => Returns t
  | None => Fatal "Null task"
  end.

(** Modelled from the spec: the release of workers for a round. The first
    [n] workers are released; the others stay on the bench. The count of
    [work] calls starts afresh. *)
Definition release (n : nat) (ws : list GangWorker) : list GangWorker :=
  imap (fun i _ => if (i <? n)%nat then mkWorker RELEASED 0 else mkWorker WAITING 0) ws.

Definition all_waiting (ws : list GangWorker) : bool :=
  forallb (fun w => bool_decide (station w = WAITING)) ws.

Definition at_yield (wk : GangWorker) : nat :=
  if bool_decide (station wk = AT_YIELD) then 1%nat else 0%nat.

Fixpoint parked_at_yield (ws : list GangWorker) : nat :=
  match ws with
  | [] => 0%nat
  | w :: ws' => (at_yield w + parked_at_yield ws')%nat
  end.

(** A worker has stopped when it is parked at its yield point or back at
    its station. *)
Definition stopped (wk : GangWorker) : bool :=
  match station wk with
  | WAITING | AT_YIELD => true
  | RELEASED | WORKING => false
  end.

Definition all_stopped (ws : list GangWorker) : bool := forallb stopped ws.

Definition at_station (wk : GangWorker) : nat :=
  if bool_decide (station wk = WAITING) then 1%nat else 0%nat.

Fixpoint back_at_station (ws : list GangWorker) : nat :=
  match ws with
  | [] => 0%nat
  | w :: ws' => (at_station w + back_at_station ws')%nat
  end.

(** Modelled from the spec: [start_task] is only declared. Following
    section 4.2 it fails if the gang is bound to a task; a completed task
    returns at once with no work done (section 3); the one dispatch
    transition is INACTIVE to ACTIVE; [actual_size] is the minimum of the
    request and the number of workers, and granting no worker is a fatal
    protocol violation (sections 4.2 and 7). The counters are reset, the
    workers released, and the caller is left blocked in [wait_for_gang]. *)
Definition start_task (new_task : nat) (w : World) : Outcome World :=
  let g := gang w in
  assert (is_NULL (_task g)) "Gang currently tied to a task" ;;
  t ← deref w new_task ;
  if completed t then Returns w
  else
    assert (bool_decide (status t = INACTIVE)) "Task already dispatched" ;;
    let granted := Z.min (requested_size t) (total_workers g) in
    assert (0 <? granted)%Z "No workers granted" ;;
    t1 ← set_gang (Some (this g)) t ;
    let t2 := set_status ACTIVE (set_actual_size granted t1) in
    Returns (mkWorld
               (mkGang (this g) (_total_workers g) (Some new_task) granted 0
                       (release (Z.to_nat granted) (gang_workers g)) true)
               (<[new_task := t2]> (heap w))).

(** Modelled from the spec: [continue_task] is only declared. Following
    section 4.2 a completed task returns at once with no worker released;
    otherwise the task must be the one bound to the gang and be YIELDED. The
    same workers are released again, none is parked at its yield point any
    more, and the caller is left blocked in [wait_for_gang]. *)
Definition continue_task (gang_task : nat) (w : World) : Outcome World :=
  let g := gang w in
  t ← deref w gang_task ;
  if completed t then Returns w
  else
    assert (bool_decide (_task g = Some gang_task)) "Incorrect usage" ;;
    assert (yielded t) "Else why are we calling continue_task()" ;;
    Returns (mkWorld
               (mkGang (this g) (_total_workers g) (_task g) (_active_workers g) 0
                       (release (Z.to_nat (_active_workers g)) (gang_workers g)) true)
               (<[gang_task := set_status ACTIVE t]> (heap w))).

Definition with_status (p : nat) (s : Status) (w : World) : World :=
  match heap w !! p with
  | Some t => mkWorld (gang w) (<[p := set_status s t]> (heap w))
  | None => w
  end.

Definition status_of (w : World) (p : nat) : option Status :=
  status <$> heap w !! p.

Definition bound_status (w : World) : option Status :=
  p ← _task (gang w) ; status_of w p.

(** Modelled from the spec: [yield()] of the gang is only declared.
    Following sections 3 and 4.2 it is the signal that drives an ACTIVE task
    to YIELDING; it does not block the caller. The task is ACTIVE as long
    as one of its workers has not returned from [work], so the signal
    reaches the workers still inside [work] also after others have
    returned. Under the other statuses no worker is left to signal
    (YIELDED, COMPLETING), the request is already pending (YIELDING), or an
    abort is (ABORTING). *)
Definition yield (w : World) : Outcome World :=
  match _task (gang w), bound_status w with
  | Some p, Some ACTIVE => Returns (with_status p YIELDING w)
  | _, _ => Returns w
  end.

Definition block (w : World) : World :=
  mkWorld (mkGang (this (gang w)) (_total_workers (gang w)) (_task (gang w))
                  (_active_workers (gang w)) (_yielded_workers (gang w))
                  (gang_workers (gang w)) true)
          (heap w).

(** Modelled from the spec: [abort_task()] is only declared. By the comment
    of the header it applies to the running task, if any. Following
    sections 3 and 4.2 it signals every active worker and ends with the
    task ABORTED: a running task becomes ABORTING, whether or not some of
    its workers have already returned from [work]. A round that has YIELDED
    is aborted just so: its workers are parked inside [yield()], which
    blocks until the coordinator resumes or aborts (section 4.1), and the
    abort is what they honour instead of continuing (section 4.2). The
    caller blocks in the barrier below until all workers have unwound. A
    task that is already ABORTING is left as it is. *)
Definition abort_task (w : World) : Outcome World :=
  match _task (gang w), bound_status w with
  | Some p, Some ACTIVE | Some p, Some YIELDING | Some p, Some YIELDED
  | Some p, Some COMPLETING =>
      Returns (block (with_status p ABORTING w))
  | _, _ => Returns w
  end.

(** Modelled from the spec: [reset()] is private and only declared.
    Following section 4.2 it clears the counters and unbinds gang and task;
    the barrier calls it when a round ends COMPLETED or ABORTED. *)
Definition reset (w : World) : World :=
  let g := gang w in
  let g' := mkGang (this g) (_total_workers g) None 0 0 (gang_workers g) (overseer_waits g) in
  match _task g with
  | Some p =>
      match heap w !! p with
      | Some t =>
          mkWorld g' (<[p := mkTask (_status t) None (_actual_size t) (_requested_size t)]>
                        (heap w))
      | None => mkWorld g' (heap w)
      end
  | None => mkWorld g' (heap w)
  end.

Definition set_workers (ws : list GangWorker) (y : Z) (blocked : bool)
    (g : YieldingFlexibleWorkGang) : YieldingFlexibleWorkGang :=
  mkGang (this g) (_total_workers g) (_task g) (_active_workers g) y ws blocked.

(** The moves of worker [i] and of the blocked overseer return [None] when
    they are not enabled. *)

(** Modelled from the spec: the worker loop (section 4.3) is missing.
    Worker [i], released, calls [work(i)]. *)
Definition work_begin (i : nat) (w : World) : option World :=
  let g := gang w in
  match _task g, gang_workers g !! i with
  | Some _, Some (mkWorker RELEASED n) =>
      Some (mkWorld (set_workers (<[i := mkWorker WORKING (S n)]> (gang_workers g))
                                 (_yielded_workers g) (overseer_waits g) g)
                    (heap w))
  | _, _ => None
  end.

(** Modelled from the spec: the worker loop is missing. [work(i)] runs to
    its end, worker [i] reports and parks at its station (section 4.3).
    Suspension is cooperative (section 5): a callback that meets no
    checkpoint any more returns also while a yield or an abort is pending,
    so the workers of a round may finish and yield in any interleaving
    (section 4.2). The normal finish of section 3 is that of the task: when
    the last worker returns and neither yield nor abort is pending, ACTIVE
    becomes COMPLETING. *)
Definition work_return (i : nat) (w : World) : option World :=
  let g := gang w in
  match _task g, bound_status w, gang_workers g !! i with
  | Some p, Some s, Some (mkWorker WORKING n) =>
      let ws := <[i := mkWorker WAITING n]> (gang_workers g) in
      let w' := mkWorld (set_workers ws (_yielded_workers g) (overseer_waits g) g)
                        (heap w) in
      match s with
      | ACTIVE => Some (if all_waiting ws then with_status p COMPLETING w' else w')
      | YIELDING | ABORTING => Some w'
      | _ => None
      end
  | _, _, _ => None
  end.

(** Modelled from the spec: the task's [yield()] is only declared. Worker
    [i] honours a pending yield request: it is counted as yielded and parks
    (section 4.1). *)
Definition task_yield (i : nat) (w : World) : option World :=
  let g := gang w in
  match _task g, bound_status w, gang_workers g !! i with
  | Some _, Some YIELDING, Some (mkWorker WORKING n) =>
      Some (mkWorld (set_workers (<[i := mkWorker AT_YIELD n]> (gang_workers g))
                                 (_yielded_workers g + 1) (overseer_waits g) g)
                    (heap w))
  | _, _, _ => None
  end.

(** Modelled from the spec: the task's [abort()] is only declared. Worker
    [i] honours a pending abort: it unwinds from [work], or from the yield
    point where it was parked, and is back at its station. *)
Definition task_abort (i : nat) (w : World) : option World :=
  let g := gang w in
  match _task g, bound_status w, gang_workers g !! i with
  | Some _, Some ABORTING, Some (mkWorker WORKING n) =>
      Some (mkWorld (set_workers (<[i := mkWorker WAITING n]> (gang_workers g))
                                 (_yielded_workers g) (overseer_waits g) g)
                    (heap w))
  | Some _, Some ABORTING, Some (mkWorker AT_YIELD n) =>
      Some (mkWorld (set_workers (<[i := mkWorker WAITING n]> (gang_workers g))
                                 (_yielded_workers g - 1) (overseer_waits g) g)
                    (heap w))
  | _, _, _ => None
  end.

Definition unblock (w : World) : World :=
  mkWorld (set_workers (gang_workers (gang w)) (_yielded_workers (gang w)) false (gang w))
          (heap w).

(** Modelled from the spec: [wait_for_gang()] is only declared. Following
    sections 2 and 4.2 the barrier returns once all active workers have
    stopped, for any reason: under a pending yield, when each of them is
    parked at its yield point or has returned from [work] (the round
    yielded); otherwise when all are back at their stations (the round
    completed or was aborted). The overseer then sets the status the round
    ended in; [coordinator_yield()] of the task runs at this point of a
    yielded round and leaves the gang as it is. *)
Definition wait_for_gang (w : World) : option World :=
  let g := gang w in
  if overseer_waits g then
    match _task g, bound_status w with
    | Some p, Some YIELDING =>
        if all_stopped (gang_workers g)
        then Some (unblock (with_status p YIELDED w)) else None
    | Some p, Some COMPLETING =>
        if all_waiting (gang_workers g)
        then Some (unblock (reset (with_status p COMPLETED w))) else None
    | Some p, Some ABORTING =>
        if all_waiting (gang_workers g)
        then Some (unblock (reset (with_status p ABORTED w))) else None
    | _, _ => None
    end
  else None.

(** What can happen to a gang: calls of its interface by the collector,
    and moves of the workers and of the barrier. *)
Inductive Call : Type :=
| StartTask (p : nat)
| ContinueTask (p : nat)
| Yield
| AbortTask
| SetRequestedSize (p : nat) (sz : Z).

Inductive Move : Type :=
| WorkBegin (i : nat)
| WorkReturn (i : nat)
| TaskYield (i : nat)
| TaskAbort (i : nat)
| WaitForGang.

#[global] Instance Move_eq_dec : EqDecision Move.
Proof. solve_decision. Defined.

Definition call (c : Call) (w : World) : Outcome World :=
  match c with
  | StartTask p => start_task p w
  | ContinueTask p => continue_task p w
  | Yield => yield w
  | AbortTask => abort_task w
  | SetRequestedSize p sz =>
      t ← deref w p ;
      Returns (mkWorld (gang w) (<[p := set_requested_size sz t]> (heap w)))
  end.

Definition move (m : Move) (w : World) : option World :=
  match m with
  | WorkBegin i => work_begin i w
  | WorkReturn i => work_return i w
  | TaskYield i => task_yield i w
  | TaskAbort i => task_abort i w
  | WaitForGang => wait_for_gang w
  end.

Definition Event : Type := (Call + Move)%type.

(** One event; [None] when the call is fatal or the move not enabled. *)
Definition fire (e : Event) (w : World) : option World :=
  match e with
  | inl c => match call c w with Returns w' => Some w' | Fatal _ => None end
  | inr m => move m w
  end.

Definition step (w w' : World) : Prop := exists e, fire e w = Some w'.

(** Runs a schedule of events, left to right. *)
Fixpoint run (schedule : list Event) (w : World) : option World :=
  match schedule with
  | [] => Some w
  | e :: rest =>
      match fire e w with
      | Some w' => run rest w'
      | None => None
      end
  end.

(** A gang as built by its constructor, next to any set of tasks. *)
Definition initial (address : nat) (workers : Z)
    (tasks : gmap nat YieldingFlexibleGangTask) : World :=
  mkWorld (new_gang address workers) tasks.

(** The legal transitions of the status (section 3 of the spec). *)
Definition legal (s s' : Status) : bool :=
  match s, s' with
  | INACTIVE, ACTIVE
  | ACTIVE, YIELDING
  | YIELDING, YIELDED
  | YIELDED, ACTIVE
  | ACTIVE, ABORTING
  | YIELDING, ABORTING
  | ABORTING, ABORTED
  | ACTIVE, COMPLETING
  | COMPLETING, COMPLETED => true
  | _, _ => false
  end.

Definition terminal (s : Status) : bool :=
  match s with ABORTED | COMPLETED => true | _ => false end.

(** The transitions the gang makes: those of section 3 and, for the abort
    of a task that has yielded or is completing, YIELDED to ABORTING and
    COMPLETING to ABORTING. *)
Definition transition (s s' : Status) : bool :=
  match s, s' with
  | YIELDED, ABORTING | COMPLETING, ABORTING => true
  | _, _ => legal s s'
  end.

(** The event that drives each transition of the status of task [p]. *)
Definition drives (e : Event) (p : nat) (s s' : Status) : bool :=
  match s, s', e with
  | INACTIVE, ACTIVE, inl (StartTask q) => bool_decide (q = p)
  | ACTIVE, YIELDING, inl Yield => true
  | YIELDING, YIELDED, inr WaitForGang => true
  | YIELDED, ACTIVE, inl (ContinueTask q) => bool_decide (q = p)
  | ACTIVE, ABORTING, inl AbortTask => true
  | YIELDING, ABORTING, inl AbortTask => true
  | YIELDED, ABORTING, inl AbortTask => true
  | COMPLETING, ABORTING, inl AbortTask => true
  | ABORTING, ABORTED, inr WaitForGang => true
  | ACTIVE, COMPLETING, inr (WorkReturn _) => true
  | COMPLETING, COMPLETED, inr WaitForGang => true
  | _, _, _ => false
  end.

(** The stations a worker of the round can be at under each status. *)
Definition allowed (s : Status) (st : Station) : bool :=
  match s, st with
  | ACTIVE, RELEASED | ACTIVE, WORKING | ACTIVE, WAITING => true
  | YIELDING, _ => true
  | YIELDED, AT_YIELD | YIELDED, WAITING => true
  | COMPLETING, WAITING => true
  | ABORTING, _ => true
  | _, _ => false
  end.

(** The number of [work] calls worker [i] has made in a round of [n]
    workers, given its station. *)
Definition calls_so_far (n : Z) (i : nat) (st : Station) : nat :=
  if (Z.of_nat i <? n)%Z then
    match st with RELEASED => 0%nat | _ => 1%nat end
  else 0%nat.

Definition legal_edge (s s' : Status) : Prop := legal s s' = true.

Definition transition_edge (s s' : Status) : Prop := transition s s' = true.

(** The states a gang can reach from its construction. *)
Definition reachable (w : World) : Prop :=
  exists address workers tasks,
    (0 <= workers)%Z /\ rtc step (initial address workers tasks) w.

(** The world a schedule leads to ([w] itself when the schedule breaks). *)
Definition after (schedule : list Event) (w : World) : World :=
  default w (run schedule w).

(** The same call made [n] times in a row. *)
Fixpoint repeatedly (n : nat) (f : World -> Outcome World) (w : World)
  : Outcome World :=
  match n with
  | O => Returns w
  | S k => w' ← f w ; repeatedly k f w'
  end.

(** A gang of three workers and two tasks, the first asking for two
    workers, the second left as constructed. *)
Definition sample_tasks : gmap nat YieldingFlexibleGangTask :=
  <[10%nat := set_requested_size 2 (new_task 0)]> (<[11%nat := new_task 0]> ∅).

Definition sample_world : World := initial 7 3 sample_tasks.

Definition dispatch : list Event :=
  [inl (StartTask 10%nat); inr (WorkBegin 0%nat); inr (WorkBegin 1%nat)].

Definition yielding_round : list Event :=
  dispatch ++ [inl Yield; inr (TaskYield 1%nat); inr (TaskYield 0%nat); inr WaitForGang].

Definition completing_round : list Event :=
  dispatch ++ [inr (WorkReturn 0%nat); inr (WorkReturn 1%nat); inr WaitForGang].

Definition aborted_round : list Event :=
  dispatch ++ [inl Yield; inr (TaskYield 0%nat); inl AbortTask;
               inr (TaskAbort 1%nat); inr (TaskAbort 0%nat); inr WaitForGang].

(** A round in which worker 0 returns from [work] and worker 1 yields, and
    a round that is aborted after it has yielded. *)
Definition mixed_round : list Event :=
  dispatch ++ [inr (WorkReturn 0%nat); inl Yield; inr (TaskYield 1%nat);
               inr WaitForGang].

Definition aborted_after_yield : list Event :=
  yielding_round ++ [inl AbortTask; inr (TaskAbort 0%nat); inr (TaskAbort 1%nat);
                     inr WaitForGang].

(** A round in which both workers return from [work] and the task is
    aborted before the barrier returns. *)
Definition aborted_while_completing : list Event :=
  dispatch ++ [inr (WorkReturn 0%nat); inr (WorkReturn 1%nat); inl AbortTask;
               inr WaitForGang].

Definition round_trip : list Event :=
  yielding_round ++
  [inl (ContinueTask 10%nat); inr (WorkBegin 1%nat); inr (WorkBegin 0%nat);
   inr (WorkReturn 1%nat); inr (WorkReturn 0%nat); inr WaitForGang].

(** What a scenario shows of a world: the status of task 10, the two
    counters, whether the overseer waits, and the [work] calls of the
    workers in the last round. *)
Definition summary (w : World) : option Status * Z * Z * bool * list nat :=
  (status_of w 10%nat, active_workers (gang w), yielded_workers (gang w),
   overseer_waits (gang w), work_calls <$> gang_workers (gang w)).

(** The active workers that have returned from [work] and are back at
    their stations. *)
Definition returned_workers (g : YieldingFlexibleWorkGang) : Z :=
  Z.of_nat (back_at_station (take (Z.to_nat (_active_workers g)) (gang_workers g))).

(** The world with other values in the two counters of the gang. *)
Definition with_counters (a y : Z) (w : World) : World :=
  mkWorld (mkGang (this (gang w)) (_total_workers (gang w)) (_task (gang w)) a y
                  (gang_workers (gang w)) (overseer_waits (gang w)))
          (heap w).

(** A step taken while the overseer is blocked in the barrier: a step of
    the round in progress. *)
Definition round_step (w w' : World) : Prop :=
  overseer_waits (gang w) = true /\ step w w'.

(** Whether a worker at station [st] has a move under status [s]. *)
Definition movable (s : Status) (st : Station) : bool :=
  match st, s with
  | RELEASED, _ => true
  | WORKING, (ACTIVE | YIELDING | ABORTING) => true
  | AT_YIELD, ABORTING => true
  | _, _ => false
  end.

(** A move of worker [i] at station [st]. *)
Definition next_move (i : nat) (st : Station) : Move :=
  match st with
  | RELEASED => WorkBegin i
  | WORKING => WorkReturn i
  | _ => TaskAbort i
  end.

(** What holds of the gang in every state it can reach. *)
Record consistent (w : World) : Prop := mkConsistent {
  workers_counted :
    Z.of_nat (length (gang_workers (gang w))) = _total_workers (gang w);
  active_bounds :
    (0 <= _active_workers (gang w) <= _total_workers (gang w))%Z;
  yielded_counted :
    _yielded_workers (gang w) = Z.of_nat (parked_at_yield (gang_workers (gang w)));
  bench_waits : forall i wk,
    gang_workers (gang w) !! i = Some wk ->
    station wk <> WAITING -> (Z.of_nat i < _active_workers (gang w))%Z;
  binding :
    match _task (gang w) with
    | None => _active_workers (gang w) = 0%Z /\ overseer_waits (gang w) = false
    | Some p =>
        exists t, heap w !! p = Some t
          /\ _actual_size t = _active_workers (gang w)
          /\ _gang t = Some (this (gang w))
          /\ (1 <= _active_workers (gang w))%Z
          /\ (overseer_waits (gang w) = false <-> _status t = YIELDED)
          /\ (_status t = ACTIVE -> all_waiting (gang_workers (gang w)) = false)
          /\ (forall i wk, gang_workers (gang w) !! i = Some wk ->
                (Z.of_nat i < _active_workers (gang w))%Z ->
                allowed (_status t) (station wk) = true)
          /\ (forall i wk, gang_workers (gang w) !! i = Some wk ->
                work_calls wk
                = calls_so_far (_active_workers (gang w)) i (station wk))
    end
}.

(** The work left in a round: how far each worker is from its station. *)
Definition rank (st : Station) : nat :=
  match st with RELEASED => 3 | WORKING => 2 | AT_YIELD => 1 | WAITING => 0 end.

Fixpoint work_left (ws : list GangWorker) : nat :=
  match ws with
  | [] => 0%nat
  | wk :: ws' => (rank (station wk) + work_left ws')%nat
  end.

End YieldingWorkgroup.

(** ** Rebinding a task (yieldingWorkgroup.hpp) *)

Module TaskBinding.
Import YieldingWorkgroup.

(** A run of [set_gang] calls on one task, stopping at the first
    assertion that fires. *)
Fixpoint set_gangs (gangs : list GangPtr) (t : YieldingFlexibleGangTask)
  : Outcome YieldingFlexibleGangTask :=
  match gangs with
  | [] => Returns t
  | g :: rest => t' ← set_gang g t ; set_gangs rest t'
  end.

(** No gang reference is overwritten by another one: of any two
    references that follow each other, one is [NULL]. *)
Fixpoint no_clobber (current : GangPtr) (gangs : list GangPtr) : bool :=
  match gangs with
  | [] => true
  | g :: rest => (is_NULL current || is_NULL g) && no_clobber g rest
  end.

End TaskBinding.

(** ** The thread cache index (threadLS_solaris_amd64.hpp) *)

Module ThreadLocalStorage.

(** [enum Constants { _pd_cache_size = 256*2 }] *)
Definition _pd_cache_size : Z := 256 * 2.

(** [pd_cache_index(uintptr_t raw_id)]. The shifts and the exclusive or of
    an unsigned 64-bit value stay below 2^64, and the remainder is below
    512, so neither the unsigned arithmetic nor the cast to [int] wraps. *)
Definition pd_cache_index (raw_id : Z) : Z :=
  Z.lxor (Z.shiftr raw_id 9) (Z.shiftr raw_id 20) mod _pd_cache_size.

End ThreadLocalStorage.

(** ** Loading KERNEL32.DLL (agent/src/os/win32/toolHelp.cpp) *)

Module ToolHelp.

(** [HMODULE]: 0 is [NULL]. *)
Definition HMODULE : Type := Z.

(** The calls made to the operating system. *)
Inductive SysCall : Type :=
| LoadLibrary (result : HMODULE)
| FreeLibrary (module : HMODULE).

(** The static [kernelDLL], and the calls made so far, oldest first. *)
Record State : Type := mkState {
  kernelDLL : HMODULE;
  syscalls : list SysCall
}.

(** [static HMODULE kernelDLL = NULL;] *)
Definition start : State := mkState 0 [].

(** [loadDLL()]; [loaded] is what [LoadLibrary] returns if it is called.
    The [assert] of <assert.h> aborts the process when it fails. *)
Definition loadDLL (loaded : HMODULE) (s : State) : Outcome (HMODULE * State) :=
  let s1 := if kernelDLL s =? 0
            then mkState loaded (syscalls s ++ [LoadLibrary loaded])
            else s in
  assert (negb (kernelDLL s1 =? 0)) "kernelDLL != NULL" ;;
  Returns (kernelDLL s1, s1).

(** [unloadDLL()] *)
Definition unloadDLL (s : State) : State :=
  if negb (kernelDLL s =? 0)
  then mkState 0 (syscalls s ++ [FreeLibrary (kernelDLL s)])
  else s.

(** The calls a client makes. *)
Inductive Op : Type :=
| Load (loaded : HMODULE)
| Unload.

Fixpoint run (ops : list Op) (s : State) : Outcome State :=
  match ops with
  | [] => Returns s
  | Load loaded :: rest => r ← loadDLL loaded s ; run rest (snd r)
  | Unload :: rest => run rest (unloadDLL s)
  end.

(** The module references a run of system calls leaves held, newest first;
    [None] if it frees a module that is not held. A [LoadLibrary] that
    returns [NULL] gives no reference. *)
Fixpoint held (calls : list SysCall) (refs : list HMODULE) : option (list HMODULE) :=
  match calls with
  | [] => Some refs
  | LoadLibrary h :: rest => held rest (if h =? 0 then refs else h :: refs)
  | FreeLibrary h :: rest =>
      match refs with
      | r :: refs' => if r =? h then held rest refs' else None
      | [] => None
      end
  end.

(** The one reference the code may hold is the one in [kernelDLL]. *)
Definition balanced (s : State) : Prop :=
  held (syscalls s) [] = Some (if kernelDLL s =? 0 then [] else [kernelDLL s]).

End ToolHelp.

(** ** Launching a process on Windows (ProcessImpl_md.c) *)

Module ProcessImpl.

(** C strings are the characters before the terminating NUL; a pointer into
    a string is an offset, [None] is [NULL]. *)
Definition space : ascii := " "%char.
Definition quote : ascii := Ascii.ascii_of_nat 34.
Definition backslash : ascii := Ascii.ascii_of_nat 92.

(** [strchr(s, c)] for a character [c] other than NUL. *)
Fixpoint strchr (s : list ascii) (c : ascii) : option nat :=
  match s with
  | [] => None
  | x :: s' => if Ascii.eqb x c then Some 0%nat else S <$> strchr s' c
  end.

(** [strchr(s + start, c)], as an offset into [s]. *)
Definition strchr_from (s : list ascii) (start : nat) (c : ascii) : option nat :=
  Nat.add start <$> strchr (drop start s) c.

(** [strrchr(s, c)] for a character [c] other than NUL. *)
Fixpoint strrchr (s : list ascii) (c : ascii) : option nat :=
  match s with
  | [] => None
  | x :: s' =>
      match strrchr s' c with
      | Some i => Some (S i)
      | None => if Ascii.eqb x c then Some 0%nat else None
      end
  end.

(** [extractExecutablePath(env, source)] for a [source] that is not
    [NULL]. Writing NUL at [p] cuts the string there; the pointer returned
    is [source] itself. The result is [None] where the code would hand the
    [NULL] of one search to the next [strchr]. *)
Definition extractExecutablePath (source : list ascii) : option (list ascii) :=
  match strchr source space with
  | None => Some source
  | Some p =>
      match strchr source quote with
      | None => Some (take p source)
      | Some r =>
          if (p <? r)%nat then Some (take p source)
          else
            p1 ← strchr_from source r quote ;
            match strchr_from source p1 space with
            | None => Some source
            | Some p2 => Some (take p2 source)
            end
      end
  end.

(** The arguments [selectProcessFlag] gives to [SearchPath]: the directory
    ([None] for [NULL]) and the file name, split at the last backslash of
    the executable path. *)
Definition search_path_arguments (exe : list ascii)
  : option (option (list ascii) * list ascii) :=
  match strchr exe backslash with
  | None => Some (None, exe)
  | Some _ =>
      p ← strrchr exe backslash ;
      Some (Some (take p exe), drop (S p) exe)
  end.

(** An open file: its bytes and the position of the next read. Reads
    deliver the bytes of the file as they are. *)
Record File : Type := mkFile {
  bytes : list Z;
  position : nat
}.

(** [_read(fd, buffer, count)]: the bytes read overwrite the front of the
    buffer; what the read does not reach keeps its old content. *)
Definition _read (f : File) (buffer : list Z) (count : nat) : list Z * File :=
  let got := take count (drop (position f) (bytes f)) in
  ((got ++ drop (length got) buffer)%list,
   mkFile (bytes f) (position f + length got)).

(** [_lseek(fd, offset, SEEK_SET)] for an offset that is not negative. *)
Definition _lseek (f : File) (offset : Z) : File :=
  mkFile (bytes f) (Z.to_nat offset).

Definition byte_at (buffer : list Z) (i : nat) : Z := default 0 (buffer !! i).

(** [(long)buffer[1] << 8 | (long)buffer[0]] *)
Definition headerLoc (buffer : list Z) : Z :=
  Z.lor (Z.shiftl (byte_at buffer 1) 8) (byte_at buffer 0).

Definition char_code (c : ascii) : Z := Z.of_nat (Ascii.nat_of_ascii c).

(** The offset a file gives for its PE header, as [selectProcessFlag]
    reads it: the bytes at 60 and 61, low byte first. *)
Definition header_offset (file : list Z) : nat :=
  Z.to_nat (byte_at file 60 + 256 * byte_at file 61).

Section WinBase.

(** Flags of <winbase.h>, not among the sources. *)
Variables DETACHED_PROCESS CREATE_NO_WINDOW CREATE_UNICODE_ENVIRONMENT : Z.

(** The part of [selectProcessFlag] from [_open] on: [fd] is what [_open]
    returned, [file] the file behind it, [buffer] the two bytes of the
    local array as the function finds them. *)
Definition selectProcessFlag (fd : Z) (file : list Z) (buffer : list Z) : Z :=
  if 0 <? fd then
    let f := mkFile file 0 in
    let '(buffer, f) := _read f buffer 2 in
    if (byte_at buffer 0 =? char_code "M") && (byte_at buffer 1 =? char_code "Z") then
      let f := _lseek f 60 in
      let '(buffer, f) := _read f buffer 2 in
      let loc := headerLoc buffer in
      let f := _lseek f loc in
      let '(buffer, f) := _read f buffer 2 in
      if (byte_at buffer 0 =? char_code "P") && (byte_at buffer 1 =? char_code "E")
      then DETACHED_PROCESS
      else 0
    else 0
  else 0.

End WinBase.

(** [os_error_message(errnum, utf16_OSErrorMsg, maxMsgLength)] after the
    call of [FormatMessageW]: [n] is what that call returned and [msg] the
    buffer as it left it. The result is [None] where the code would read or
    write outside the buffer. *)
Definition LF : Z := 10.
Definition CR : Z := 13.
Definition DOT : Z := 46.

Definition drop_final (c : Z) (msg : list Z) (n : nat) : option nat :=
  last ← msg !! (n - 1)%nat ;
  Some (if last =? c then (n - 1)%nat else n).

Definition os_error_message (n : nat) (msg : list Z) : option (nat * list Z) :=
  if (3 <? n)%nat then
    n ← drop_final LF msg n ;
    n ← drop_final CR msg n ;
    n ← drop_final DOT msg n ;
    if (n <? length msg)%nat then Some (n, <[n := 0]> msg) else None
  else Some (n, msg).

(** A string as wide characters. *)
Definition wide (s : string) : list Z := char_code <$> list_ascii_of_string s.

(** A character that was dropped, or nothing. *)
Definition dropped (b : bool) (c : Z) : list Z := if b then [c] else [].

(** The text of a buffer: the characters before the first NUL. *)
Fixpoint wcs (msg : list Z) : list Z :=
  match msg with
  | [] => []
  | c :: rest => if c =? 0 then [] else c :: wcs rest
  end.

End ProcessImpl.

(** ** Creating a process (ProcessImpl_md.c, continued) *)

Module ProcessCreate.

(** [HANDLE]: 0 is the null handle. *)
Definition HANDLE : Type := Z.

(** The three strings and the three file descriptor objects handed to
    [Java_java_lang_ProcessImpl_create]. *)
Inductive JString : Type := cmd | envBlock | dir.
Inductive FdObject : Type := in_fd | out_fd | err_fd.

(** The calls the function makes, in the order it makes them, each with
    what the operating system or the JNI answered. [Throw] is
    [win32Error], which raises an [IOException]. *)
Inductive Effect : Type :=
| CreatePipe (result : option (HANDLE * HANDLE))
| Throw (functionName : string)
| GetStringChars (s : JString) (ok : bool)
| SetHandleInformation (h : HANDLE)
| CreateProcessW (flags : Z) (hStdInput hStdOutput hStdError : HANDLE)
                 (result : option (HANDLE * HANDLE))
| CloseHandle (h : HANDLE)
| SetLongField (fd : FdObject) (value : Z)
| ReleaseStringChars (s : JString).

(** What the environment answers: the platform, the read and write ends of
    each pipe if its creation succeeds, whether the characters of each
    string can be had, the flag [selectProcessFlag] picks, and the process
    and thread handles if the process is created. *)
Record OS : Type := mkOS {
  onNT : bool;
  pipe_in : option (HANDLE * HANDLE);
  pipe_out : option (HANDLE * HANDLE);
  pipe_err : option (HANDLE * HANDLE);
  chars_cmd : bool;
  chars_dir : bool;
  chars_envBlock : bool;
  selected : Z;
  process : option (HANDLE * HANDLE)
}.

(** The locals of the function and the calls made so far. *)
Record Frame : Type := mkFrame {
  inRead : HANDLE;
  inWrite : HANDLE;
  outRead : HANDLE;
  outWrite : HANDLE;
  errRead : HANDLE;
  errWrite : HANDLE;
  pcmd : bool;           (* pcmd != NULL *)
  pdir : bool;
  penvBlock : bool;
  effects : list Effect
}.

Definition entry : Frame := mkFrame 0 0 0 0 0 0 false false false [].

(** A stretch of the function body: it falls through with a value, or
    leaves with [goto Catch] ([None]). *)
Definition Step (A : Type) : Type := Frame -> option A * Frame.

#[global] Instance Step_ret : MRet Step := fun A a f => (Some a, f).
#[global] Instance Step_bind : MBind Step :=
  fun A B k c f =>
    match c f with
    | (Some a, f') => k a f'
    | (None, f') => (None, f')
    end.

Definition goto_Catch {A : Type} : Step A := fun f => (None, f).

Definition emit (e : Effect) : Step unit :=
  fun f => (Some tt,
            mkFrame (inRead f) (inWrite f) (outRead f) (outWrite f)
                    (errRead f) (errWrite f) (pcmd f) (pdir f) (penvBlock f)
                    (effects f ++ [e])).

Definition local {A : Type} (get : Frame -> A) : Step A := fun f => (Some (get f), f).

Definition store_in (r w : HANDLE) : Step unit :=
  fun f => (Some tt,
            mkFrame r w (outRead f) (outWrite f) (errRead f) (errWrite f)
                    (pcmd f) (pdir f) (penvBlock f) (effects f)).
Definition store_out (r w : HANDLE) : Step unit :=
  fun f => (Some tt,
            mkFrame (inRead f) (inWrite f) r w (errRead f) (errWrite f)
                    (pcmd f) (pdir f) (penvBlock f) (effects f)).
Definition store_err (r w : HANDLE) : Step unit :=
  fun f => (Some tt,
            mkFrame (inRead f) (inWrite f) (outRead f) (outWrite f) r w
                    (pcmd f) (pdir f) (penvBlock f) (effects f)).

Definition store_chars (s : JString) : Step unit :=
  fun f => (Some tt,
            mkFrame (inRead f) (inWrite f) (outRead f) (outWrite f)
                    (errRead f) (errWrite f)
                    (match s with cmd => true | _ => pcmd f end)
                    (match s with dir => true | _ => pdir f end)
                    (match s with envBlock => true | _ => penvBlock f end)
                    (effects f)).

(** [CreatePipe(&read, &write, &sa, PIPE_SIZE)] *)
Definition create_pipe (result : option (HANDLE * HANDLE))
    (store : HANDLE -> HANDLE -> Step unit) : Step bool :=
  emit (CreatePipe result) ;;
  match result with
  | Some (r, w) => store r w ;; mret true
  | None => mret false
  end.

(** [GetStringChars] on string [s], and [goto Catch] if it gives [NULL]. *)
Definition get_chars (s : JString) (ok : bool) : Step unit :=
  emit (GetStringChars s ok) ;;
  if ok then store_chars s else goto_Catch.

(** [SetHandleInformation(h, HANDLE_FLAG_INHERIT, FALSE)] *)
Definition no_inherit (get : Frame -> HANDLE) : Step unit :=
  h ← local get ; emit (SetHandleInformation h).

(** [closeSafely(handle)] *)
Definition closeSafely (get : Frame -> HANDLE) : Step unit :=
  h ← local get ; if h =? 0 then mret tt else emit (CloseHandle h).

Definition release (get : Frame -> bool) (s : JString) : Step unit :=
  held ← local get ;
  if held : bool then emit (ReleaseStringChars s) else mret tt.

Section WinBase.

(** Flags of <winbase.h>, not among the sources. *)
Variables CREATE_NO_WINDOW CREATE_UNICODE_ENVIRONMENT : Z.

(** The body of [Java_java_lang_ProcessImpl_create] down to the label
    [Finally]; its value is [ret]. *)
Definition body (os : OS) (dir_given envBlock_given redirectErrorStream : bool)
  : Step Z :=
  pipes ← (ok ← create_pipe (pipe_in os) store_in ;
           if ok : bool then
             ok ← create_pipe (pipe_out os) store_out ;
             if ok : bool then create_pipe (pipe_err os) store_err else mret false
           else mret false) ;
  (if pipes : bool then mret tt else emit (Throw "CreatePipe") ;; goto_Catch) ;;
  get_chars cmd (chars_cmd os) ;;
  (if dir_given then get_chars dir (chars_dir os) else mret tt) ;;
  (if envBlock_given then get_chars envBlock (chars_envBlock os) else mret tt) ;;
  hStdInput ← local inRead ;
  hStdOutput ← local outWrite ;
  hStdError ← local (if redirectErrorStream then outWrite else errWrite) ;
  no_inherit inWrite ;;
  no_inherit outRead ;;
  no_inherit errRead ;;
  (if redirectErrorStream then no_inherit errWrite else mret tt) ;;
  let processFlag :=
    if onNT os
    then Z.lor CREATE_NO_WINDOW CREATE_UNICODE_ENVIRONMENT
    else Z.lor (selected os) CREATE_UNICODE_ENVIRONMENT in
  emit (CreateProcessW processFlag hStdInput hStdOutput hStdError (process os)) ;;
  match process os with
  | None => emit (Throw "CreateProcess") ;; goto_Catch
  | Some (hProcess, hThread) =>
      emit (CloseHandle hThread) ;;
      h ← local inWrite ; emit (SetLongField in_fd h) ;;
      h ← local outRead ; emit (SetLongField out_fd h) ;;
      h ← local errRead ; emit (SetLongField err_fd h) ;;
      mret hProcess
  end.

(** The label [Finally]: the child's side of the pipes and the strings. *)
Definition Finally : Step unit :=
  closeSafely inRead ;;
  closeSafely outWrite ;;
  closeSafely errWrite ;;
  release pcmd cmd ;;
  release pdir dir ;;
  release penvBlock envBlock.

(** The label [Catch]: the parent's side of the pipes, then [Finally]. *)
Definition Catch : Step unit :=
  closeSafely inWrite ;;
  closeSafely outRead ;;
  closeSafely errRead.

(** [Java_java_lang_ProcessImpl_create]: the value returned and the calls
    made. *)
Definition create (os : OS) (dir_given envBlock_given redirectErrorStream : bool)
  : Z * list Effect :=
  let '(ret, f) := body os dir_given envBlock_given redirectErrorStream entry in
  let f := match ret with
           | Some _ => f
           | None => snd (Catch f)
           end in
  (default 0 ret, effects (snd (Finally f))).

End WinBase.

(** What a run of calls did. *)
Definition closed (trace : list Effect) : list HANDLE :=
  flat_map (fun e => match e with CloseHandle h => [h] | _ => [] end) trace.

Definition pipe_handles (trace : list Effect) : list HANDLE :=
  flat_map (fun e => match e with CreatePipe (Some (r, w)) => [r; w] | _ => [] end) trace.

Definition process_handles (trace : list Effect) : list HANDLE :=
  flat_map (fun e => match e with
                     | CreateProcessW _ _ _ _ (Some (p, t)) => [p; t]
                     | _ => []
                     end) trace.

Definition acquired (trace : list Effect) : list JString :=
  flat_map (fun e => match e with GetStringChars s true => [s] | _ => [] end) trace.

Definition released (trace : list Effect) : list JString :=
  flat_map (fun e => match e with ReleaseStringChars s => [s] | _ => [] end) trace.

Definition stored (trace : list Effect) : list (FdObject * Z) :=
  flat_map (fun e => match e with SetLongField fd v => [(fd, v)] | _ => [] end) trace.

Definition thrown (trace : list Effect) : list string :=
  flat_map (fun e => match e with Throw name => [name] | _ => [] end) trace.

(** The handles the system gives out are not null. *)
Definition live (pair : option (HANDLE * HANDLE)) : Prop :=
  match pair with
  | Some (a, b) => a <> 0 /\ b <> 0
  | None => True
  end.

Definition sound (os : OS) : Prop :=
  live (pipe_in os) /\ live (pipe_out os) /\ live (pipe_err os) /\ live (process os).

(** An environment in which everything succeeds, and one in which the
    second pipe cannot be created. *)
Definition fair_weather : OS :=
  mkOS true (Some (11, 12)) (Some (21, 22)) (Some (31, 32)) true true true 0
       (Some (100, 101)).

Definition out_of_pipes : OS :=
  mkOS true (Some (11, 12)) None (Some (31, 32)) true true true 0
       (Some (100, 101)).

End ProcessCreate.

(** * Properties *)

Lemma ptr_eqb_eq (p q : ThreadPtr) : ptr_eqb p q = true <-> p = q.
Proof.
  destruct p as [a|], q as [b|]; simpl; split; intros H;
    try discriminate; try reflexivity.
  - apply Nat.eqb_eq in H. now subst.
  - injection H as ->. apply Nat.eqb_refl.
Qed.


Lemma passes_Returns {A : Type} (a : A) : passes (Returns a).
Proof. now exists a. Qed.

Lemma passes_Fatal {A : Type} (msg : string) : ~ passes (@Fatal A msg).
Proof. intros [a H]. discriminate H. Qed.

Lemma passes_assert (p : bool) (msg : string) : passes (assert p msg) <-> p = true.
Proof.
  destruct p; simpl; split; intros H; try reflexivity.
  - apply passes_Returns.
  - now apply passes_Fatal in H.
  - discriminate H.
Qed.

(** Unfolds the monad of [Outcome] and the assertion macros. *)
Ltac unroll :=
  cbn [negb]; unfold mbind, mret, Outcome_bind, Outcome_ret, bind,
    assert, guarantee, ShouldNotReachHere in *; cbn [negb].

Section LockVerifier.
Import CMSLockVerifier.

(** Scenarios of the spec: a worker passes when the VM thread holds the
    lock for it and fails when an unrelated thread does; a thread of no
    known role fails on a lock-free structure. *)
Example worker_under_vm_lock :
  assert_locked (runtime_of true worker_t 4) (Some (held_by vm_t)) None = Returns tt.
Proof. reflexivity. Qed.

Example worker_under_foreign_lock :
  assert_locked (runtime_of true worker_t 4) (Some (held_by java_t)) None
  = Fatal "Should be locked by VM thread or CMS thread on my behalf".
Proof. reflexivity. Qed.

Example stranger_on_lock_free_structure :
  assert_locked (runtime_of true other_t 4) None None = Fatal "Unexpected thread type".
Proof. reflexivity. Qed.

(** The comparison is one of pointers: where no CMS thread exists, a lock
    that nobody holds has the owner [cmst()] returns. *)
Example worker_under_free_lock_without_cms_thread :
  assert_locked (mkRuntime true worker_t None (Some 1%nat) true true 4)
                (Some unlocked) None = Returns tt.
Proof. reflexivity. Qed.

Example stranger_under_own_lock :
  assert_locked (runtime_of true other_t 4) (Some (held_by other_t)) None
  = Fatal "ShouldNotReachHere()".
Proof. reflexivity. Qed.

(** C9. While [Universe::is_fully_initialized()] is false, [assert_locked]
    returns at once for every lock, every secondary lock and every state of
    the runtime: no role, token or ownership check can fail. *)
Theorem assert_locked_inert_before_initialization
    (rt : Runtime) (lock p_lock : option Mutex) :
  is_fully_initialized rt = false ->
  assert_locked rt lock p_lock = Returns tt.
Proof.
  intros Hinit. unfold assert_locked. now rewrite Hinit.
Qed.

Lemma assert_locked_inert_before_initialization_witness :
  is_fully_initialized (runtime_of false other_t 4) = false /\
  assert_locked (runtime_of false other_t 4) None (Some (held_by java_t)) = Returns tt.
Proof.
  split; [reflexivity|].
  apply (assert_locked_inert_before_initialization
           (runtime_of false other_t 4) None (Some (held_by java_t))).
  reflexivity.
Defined.

(** C10 as stated fails: before full initialisation a call with a null
    lock and a non-null secondary lock returns normally. *)
Lemma null_lock_with_secondary_before_initialization :
  assert_locked (runtime_of false worker_t 4) None (Some unlocked) = Returns tt.
Proof. reflexivity. Qed.

(** C10, amended. Once the runtime is fully initialised, every call with a
    null lock and a non-null secondary lock fails with "Unexpected state",
    whatever the role of the caller and the state of the tokens; and a call
    that respects the precondition (null lock implies null secondary lock)
    never fails with that message, initialised or not. *)
Theorem null_lock_requires_null_secondary (rt : Runtime) :
  (is_fully_initialized rt = true ->
   forall p : Mutex, assert_locked rt None (Some p) = Fatal "Unexpected state") /\
  (forall lock p_lock : option Mutex,
      (lock = None -> p_lock = None) ->
      assert_locked rt lock p_lock <> Fatal "Unexpected state").
Proof.
  split.
  - intros Hinit p. unfold assert_locked. rewrite Hinit. reflexivity.
  - intros lock p_lock Hpre. unfold assert_locked, assert_lock_strong.
    destruct (is_fully_initialized rt); [|discriminate].
    destruct lock as [l|]; [|rewrite (Hpre eq_refl)];
      unroll; repeat (case_match; unroll); simplify_eq; done.
Qed.

Lemma null_lock_requires_null_secondary_witness :
  is_fully_initialized (runtime_of true worker_t 4) = true /\
  assert_locked (runtime_of true worker_t 4) None (Some unlocked) = Fatal "Unexpected state".
Proof.
  split; [reflexivity|].
  apply (proj1 (null_lock_requires_null_secondary (runtime_of true worker_t 4)) eq_refl).
Defined.

(** C6 as stated fails twice over: before full initialisation a thread of
    no known role passes on a null lock; and after it a worker that passes
    a secondary lock along with the null lock fails. *)
Lemma null_lock_check_depends_on_initialization_and_secondary :
  assert_locked (runtime_of false other_t 4) None None = Returns tt /\
  assert_locked (runtime_of true worker_t 4) None (Some unlocked)
  = Fatal "Unexpected state".
Proof. split; reflexivity. Qed.

(** C6, amended. Once the runtime is fully initialised, a call with a null
    lock passes exactly when the secondary lock is null as well and the
    caller is the concurrent-GC thread, being the one CMS thread and
    holding the CMS token; or else the VM thread, holding the token; or
    else a GC task thread. Every other caller takes the fatal path. *)
Theorem assert_locked_null_lock (rt : Runtime) (p_lock : option Mutex) :
  is_fully_initialized rt = true ->
  (passes (assert_locked rt None p_lock) <->
   p_lock = None /\
   ((is_ConcurrentGC_thread (current rt) = true /\
     self rt = cmst rt /\ cms_thread_has_cms_token rt = true)
    \/ (is_ConcurrentGC_thread (current rt) = false /\
        is_VM_thread (current rt) = true /\ vm_thread_has_cms_token rt = true)
    \/ (is_ConcurrentGC_thread (current rt) = false /\
        is_VM_thread (current rt) = false /\
        is_GC_task_thread (current rt) = true)))
  /\ (~ passes (assert_locked rt None p_lock) -> halts (assert_locked rt None p_lock)).
Proof.
  intros Hinit. split.
  - unfold assert_locked. rewrite Hinit. cbn [negb].
    destruct p_lock as [p|]; cbn [is_null]; unroll.
    + split; [intros H; now apply passes_Fatal in H | intros [H _]; discriminate H].
    + destruct (is_ConcurrentGC_thread (current rt)).
      * destruct (ptr_eqb (self rt) (cmst rt)) eqn:Hc.
        -- apply ptr_eqb_eq in Hc.
           destruct (cms_thread_has_cms_token rt); split; intros H.
           ++ split; [reflexivity|]. left. now repeat split.
           ++ apply passes_Returns.
           ++ now apply passes_Fatal in H.
           ++ destruct H as [_ [H|[H|H]]]; destruct H as (?&?&?); discriminate.
        -- split; intros H; [now apply passes_Fatal in H|].
           destruct H as [_ [H|[H|H]]]; destruct H as (?&H1&?); try discriminate.
           apply ptr_eqb_eq in H1. congruence.
      * destruct (is_VM_thread (current rt)).
        -- destruct (vm_thread_has_cms_token rt); split; intros H.
           ++ split; [reflexivity|]. right; left. now repeat split.
           ++ apply passes_Returns.
           ++ now apply passes_Fatal in H.
           ++ destruct H as [_ [H|[H|H]]]; destruct H as (?&?&?); discriminate.
        -- destruct (is_GC_task_thread (current rt)); split; intros H.
           ++ split; [reflexivity|]. right; right. now repeat split.
           ++ apply passes_Returns.
           ++ now apply passes_Fatal in H.
           ++ destruct H as [_ [H|[H|H]]]; destruct H as (?&?&?); discriminate.
  - intros H. destruct (assert_locked rt None p_lock) as [[]|msg].
    + destruct H. apply passes_Returns.
    + now exists msg.
Qed.

Lemma assert_locked_null_lock_witness :
  is_fully_initialized (runtime_of true cms_t 4) = true /\
  passes (assert_locked (runtime_of true cms_t 4) None None).
Proof.
  split; [reflexivity|].
  apply (proj1 (assert_locked_null_lock (runtime_of true cms_t 4) None eq_refl)).
  split; [reflexivity|]. left. repeat split; reflexivity.
Defined.

(** C5 as stated fails: before full initialisation a worker passes under a
    lock held by an unrelated Java thread. *)
Lemma worker_passes_before_initialization :
  owner (held_by java_t) <> vm_thread (runtime_of false worker_t 4) /\
  owner (held_by java_t) <> cmst (runtime_of false worker_t 4) /\
  assert_locked (runtime_of false worker_t 4) (Some (held_by java_t)) None = Returns tt.
Proof. repeat split; discriminate. Qed.

(** C5, amended. Once the runtime is fully initialised, with parallel GC
    threads configured and a caller that is a GC task thread and none of
    VM, concurrent-GC or Java thread, the check on a non-null lock passes
    exactly when [lock->owner()] equals [VMThread::vm_thread()] or
    [ConcurrentMarkSweepThread::cmst()].
    Whether the worker holds the lock itself is never consulted, and a
    worker that does hold it (being neither of the two) fails. *)
Theorem assert_locked_worker_delegation
    (rt : Runtime) (l : Mutex) (p_lock : option Mutex) :
  is_fully_initialized rt = true ->
  (ParallelGCThreads rt =? 0)%N = false ->
  is_VM_thread (current rt) = false ->
  is_ConcurrentGC_thread (current rt) = false ->
  is_Java_thread (current rt) = false ->
  is_GC_task_thread (current rt) = true ->
  (passes (assert_locked rt (Some l) p_lock) <->
   owner l = vm_thread rt \/ owner l = cmst rt)
  /\ (owned_by_self rt l = true ->
      self rt <> vm_thread rt -> self rt <> cmst rt ->
      assert_locked rt (Some l) p_lock
      = Fatal "Should be locked by VM thread or CMS thread on my behalf").
Proof.
  intros Hinit Hpar Hvm Hcgc Hjava Hgc.
  assert (Heq : assert_locked rt (Some l) p_lock
                = assert (ptr_eqb (owner l) (vm_thread rt)
                          || ptr_eqb (owner l) (cmst rt))
                    "Should be locked by VM thread or CMS thread on my behalf").
  { unfold assert_locked. rewrite Hinit, Hpar, Hvm, Hcgc, Hjava, Hgc. reflexivity. }
  rewrite Heq. split.
  - rewrite passes_assert, orb_true_iff, !ptr_eqb_eq. reflexivity.
  - intros Hself Hv Hc. unfold owned_by_self in Hself.
    apply ptr_eqb_eq in Hself. rewrite Hself.
    destruct (ptr_eqb (self rt) (vm_thread rt)) eqn:E1;
      [apply ptr_eqb_eq in E1; contradiction|].
    destruct (ptr_eqb (self rt) (cmst rt)) eqn:E2;
      [apply ptr_eqb_eq in E2; contradiction|].
    reflexivity.
Qed.

Lemma assert_locked_worker_delegation_witness :
  passes (assert_locked (runtime_of true worker_t 4) (Some (held_by cms_t)) (Some unlocked)).
Proof.
  apply (proj1 (assert_locked_worker_delegation
                  (runtime_of true worker_t 4) (held_by cms_t) (Some unlocked)
                  eq_refl eq_refl eq_refl eq_refl eq_refl eq_refl)).
  right. reflexivity.
Defined.

(** C7 as stated fails: before full initialisation, with no parallel GC
    threads, a Java thread passes under a lock that the VM thread holds. *)
Lemma direct_holder_passes_before_initialization :
  owned_by_self (runtime_of false java_t 0) (held_by vm_t) = false /\
  assert_locked (runtime_of false java_t 0) (Some (held_by vm_t)) None = Returns tt.
Proof. split; reflexivity. Qed.

(** C7, amended. Once the runtime is fully initialised, a call with a
    non-null lock passes, when [ParallelGCThreads] is zero, exactly when
    the caller holds the lock (the secondary lock is ignored); and when it
    is not zero and the caller is the VM thread, a concurrent-GC thread or
    a Java thread, exactly when the caller holds the lock and the
    secondary lock, if one is given, is unlocked or held by the caller. *)
Theorem assert_locked_direct_holders
    (rt : Runtime) (l : Mutex) (p_lock : option Mutex) :
  is_fully_initialized rt = true ->
  ((ParallelGCThreads rt =? 0)%N = true ->
   (passes (assert_locked rt (Some l) p_lock) <-> owned_by_self rt l = true))
  /\
  ((ParallelGCThreads rt =? 0)%N = false ->
   is_VM_thread (current rt) || is_ConcurrentGC_thread (current rt)
     || is_Java_thread (current rt) = true ->
   (passes (assert_locked rt (Some l) p_lock) <->
    owned_by_self rt l = true /\
    forall p, p_lock = Some p -> is_locked p = false \/ owned_by_self rt p = true)).
Proof.
  intros Hinit. split.
  - intros Hpar. unfold assert_locked, assert_lock_strong.
    rewrite Hinit, Hpar. cbn [negb]. apply passes_assert.
  - intros Hpar Hrole. unfold assert_locked, assert_lock_strong.
    rewrite Hinit, Hpar, Hrole. cbn [negb]. unroll.
    destruct (owned_by_self rt l).
    + destruct p_lock as [p|].
      * fold (assert (negb (is_locked p) || owned_by_self rt p)
                "Possible race between this and parallel GC threads").
        rewrite passes_assert, orb_true_iff, negb_true_iff. split.
        -- intros H. split; [reflexivity|]. intros q [= <-]. exact H.
        -- intros [_ H]. now apply H.
      * split; [|intros _; apply passes_Returns].
        intros _. split; [reflexivity|]. intros p Hp. discriminate Hp.
    + split; [intros H; now apply passes_Fatal in H | intros [H _]; discriminate H].
Qed.

Lemma assert_locked_direct_holders_witness :
  passes (assert_locked (runtime_of true vm_t 4) (Some (held_by vm_t)) (Some unlocked)).
Proof.
  apply (proj2 (assert_locked_direct_holders
                  (runtime_of true vm_t 4) (held_by vm_t) (Some unlocked) eq_refl)
           eq_refl eq_refl).
  split; [reflexivity|]. intros p [= <-]. left. reflexivity.
Defined.

End LockVerifier.

(** ** The work gang *)

Section Workers.
Import YieldingWorkgroup.

Implicit Types (ws : list GangWorker) (wk : GangWorker) (i n : nat).

Lemma at_yield_station wk :
  at_yield wk = match station wk with AT_YIELD => 1%nat | _ => 0%nat end.
Proof. now destruct wk as [[] ?]. Qed.

Lemma parked_insert ws i a b :
  ws !! i = Some a ->
  (parked_at_yield (<[i:=b]> ws) + at_yield a
   = parked_at_yield ws + at_yield b)%nat.
Proof.
  revert i. induction ws as [|x ws IH]; intros [|i] Hi; simpl in *; try discriminate.
  - injection Hi as ->. lia.
  - specialize (IH i Hi). lia.
Qed.

Lemma parked_imap_none (f : nat -> GangWorker -> GangWorker) ws :
  (forall i x, station (f i x) <> AT_YIELD) ->
  parked_at_yield (imap f ws) = 0%nat.
Proof.
  revert f. induction ws as [|x ws IH]; intros f Hf; simpl; [reflexivity|].
  unfold at_yield at 1. rewrite bool_decide_eq_false_2 by apply Hf.
  rewrite IH; [reflexivity|]. intros i y. apply Hf.
Qed.

Lemma parked_release n ws : parked_at_yield (release n ws) = 0%nat.
Proof.
  apply parked_imap_none. intros i _. now destruct (i <? n)%nat.
Qed.

Lemma lookup_release n ws i wk :
  release n ws !! i = Some wk ->
  wk = if (i <? n)%nat then mkWorker RELEASED 0 else mkWorker WAITING 0.
Proof.
  unfold release. rewrite list_lookup_imap.
  destruct (ws !! i); simpl; congruence.
Qed.

Lemma release_round (k : Z) ws i wk :
  release (Z.to_nat k) ws !! i = Some wk ->
  ((Z.of_nat i < k)%Z -> wk = mkWorker RELEASED 0) /\
  ((k <= Z.of_nat i)%Z -> wk = mkWorker WAITING 0).
Proof.
  intros Hi. apply lookup_release in Hi. subst wk. split; intros Hk.
  - rewrite (proj2 (Nat.ltb_lt _ _)); [reflexivity|lia].
  - rewrite (proj2 (Nat.ltb_ge _ _)); [reflexivity|lia].
Qed.

Lemma length_release n ws : length (release n ws) = length ws.
Proof. apply length_imap. Qed.

Lemma parked_le ws n :
  (forall i wk, ws !! i = Some wk -> station wk = AT_YIELD -> (i < n)%nat) ->
  (parked_at_yield ws <= n)%nat.
Proof.
  revert n. induction ws as [|x ws IH]; intros n H; simpl; [lia|].
  unfold at_yield at 1. case_bool_decide as Hx.
  - pose proof (H 0%nat x eq_refl Hx) as H0.
    destruct n as [|n]; [lia|].
    assert (parked_at_yield ws <= n)%nat; [|lia].
    apply IH. intros i wk Hi Hy. specialize (H (S i) wk Hi Hy). lia.
  - apply IH. intros i wk Hi Hy. specialize (H (S i) wk Hi Hy). lia.
Qed.

Lemma parked_full ws n :
  parked_at_yield ws = n ->
  (forall i wk, ws !! i = Some wk -> station wk = AT_YIELD -> (i < n)%nat) ->
  forall i wk, ws !! i = Some wk -> (i < n)%nat -> station wk = AT_YIELD.
Proof.
  revert n. induction ws as [|x ws IH]; intros n Hn H i wk Hi Hlt; [discriminate|].
  simpl in Hn.
  assert (Htail : forall m, (forall j wk', (x :: ws) !! j = Some wk' ->
                    station wk' = AT_YIELD -> (j < S m)%nat) ->
                  forall j wk', ws !! j = Some wk' ->
                    station wk' = AT_YIELD -> (j < m)%nat).
  { intros m Hm j wk' Hj Hy. specialize (Hm (S j) wk' Hj Hy). lia. }
  destruct n as [|n]; [lia|].
  unfold at_yield at 1 in Hn. case_bool_decide as Hx.
  - destruct i as [|i]; simpl in Hi.
    + now injection Hi as <-.
    + apply (IH n ltac:(lia) (Htail n H) i wk Hi). lia.
  - pose proof (parked_le ws n (Htail n H)). lia.
Qed.

Lemma parked_all ws n :
  (n <= length ws)%nat ->
  (forall i wk, ws !! i = Some wk -> (station wk = AT_YIELD <-> (i < n)%nat)) ->
  parked_at_yield ws = n.
Proof.
  revert n. induction ws as [|x ws IH]; intros n Hlen H; simpl in *; [lia|].
  unfold at_yield at 1. destruct n as [|n].
  - rewrite bool_decide_eq_false_2.
    + rewrite (IH 0%nat); [reflexivity|lia|].
      intros i wk Hi. specialize (H (S i) wk Hi). split; [|lia].
      intros Hy. apply H in Hy. lia.
    + intros Hx. apply (H 0%nat x eq_refl) in Hx. lia.
  - rewrite bool_decide_eq_true_2 by (apply (H 0%nat x eq_refl); lia).
    rewrite (IH n); [reflexivity|lia|].
    intros i wk Hi. specialize (H (S i) wk Hi). rewrite H. lia.
Qed.

Lemma all_waiting_lookup ws :
  all_waiting ws = true <->
  forall i wk, ws !! i = Some wk -> station wk = WAITING.
Proof.
  unfold all_waiting. induction ws as [|x ws IH]; simpl.
  - split; [intros _ i wk Hi; discriminate|reflexivity].
  - rewrite andb_true_iff, bool_decide_eq_true, IH. split.
    + intros [Hx H] [|i] wk Hi; simpl in Hi; [now injection Hi as <-|eauto].
    + intros H. split; [apply (H 0%nat x eq_refl)|].
      intros i wk Hi. apply (H (S i) wk Hi).
Qed.

Lemma all_waiting_parked ws : all_waiting ws = true -> parked_at_yield ws = 0%nat.
Proof.
  intros H. assert (parked_at_yield ws <= 0)%nat; [|lia].
  apply parked_le. intros i wk Hi Hy.
  rewrite all_waiting_lookup in H. rewrite (H i wk Hi) in Hy. discriminate.
Qed.

Lemma work_left_insert ws i a b :
  ws !! i = Some a ->
  (work_left (<[i:=b]> ws) + rank (station a)
   = work_left ws + rank (station b))%nat.
Proof.
  revert i. induction ws as [|x ws IH]; intros [|i] Hi; simpl in *; try discriminate.
  - injection Hi as ->. lia.
  - specialize (IH i Hi). lia.
Qed.

Lemma not_all_waiting ws i wk :
  ws !! i = Some wk -> station wk <> WAITING -> all_waiting ws = false.
Proof.
  intros Hi Hne. destruct (all_waiting ws) eqn:E; [|reflexivity].
  rewrite all_waiting_lookup in E. now destruct (Hne (E i wk Hi)).
Qed.

Lemma all_stopped_lookup ws :
  all_stopped ws = true <->
  forall i wk, ws !! i = Some wk -> stopped wk = true.
Proof.
  unfold all_stopped. induction ws as [|x ws IH]; simpl.
  - split; [intros _ i wk Hi; discriminate|reflexivity].
  - rewrite andb_true_iff, IH. split.
    + intros [Hx H] [|i] wk Hi; simpl in Hi; [now injection Hi as <-|eauto].
    + intros H. split; [apply (H 0%nat x eq_refl)|].
      intros i wk Hi. apply (H (S i) wk Hi).
Qed.

Lemma at_station_station (wk : GangWorker) :
  at_station wk = match station wk with WAITING => 1%nat | _ => 0%nat end.
Proof. unfold at_station. now destruct (station wk). Qed.

(** Among workers that have all stopped, each is parked at its yield point
    or back at its station. *)
Lemma stopped_counted ws :
  all_stopped ws = true ->
  (parked_at_yield ws + back_at_station ws = length ws)%nat.
Proof.
  induction ws as [|x ws IH]; simpl; [reflexivity|].
  rewrite andb_true_iff. intros [Hx H]. specialize (IH H).
  rewrite at_yield_station, at_station_station.
  unfold stopped in Hx. destruct (station x); try discriminate; lia.
Qed.

Lemma parked_app ws1 ws2 :
  parked_at_yield (ws1 ++ ws2) = (parked_at_yield ws1 + parked_at_yield ws2)%nat.
Proof. induction ws1 as [|x ws1 IH]; simpl; [reflexivity|lia]. Qed.

Lemma all_stopped_take n ws : all_stopped ws = true -> all_stopped (take n ws) = true.
Proof.
  rewrite !all_stopped_lookup. intros H i wk Hi.
  apply lookup_take_Some in Hi as [Hi _]. eauto.
Qed.

(** Workers parked at their yield point are all among the first [n] when
    the others are at their stations. *)
Lemma parked_take n ws :
  (forall i wk, ws !! i = Some wk -> station wk = AT_YIELD -> (i < n)%nat) ->
  parked_at_yield (take n ws) = parked_at_yield ws.
Proof.
  intros H. rewrite <- (take_drop n ws) at 2. rewrite parked_app.
  assert (parked_at_yield (drop n ws) <= 0)%nat; [|lia].
  apply parked_le. intros i wk Hi Hy. rewrite lookup_drop in Hi.
  specialize (H _ _ Hi Hy). lia.
Qed.

Lemma waiting_stopped ws : all_waiting ws = true -> all_stopped ws = true.
Proof.
  rewrite all_waiting_lookup, all_stopped_lookup. intros H i wk Hi.
  unfold stopped. now rewrite (H i wk Hi).
Qed.

End Workers.

Section Consistency.
Import YieldingWorkgroup.

Lemma consistent_initial (address : nat) (workers : Z)
    (tasks : gmap nat YieldingFlexibleGangTask) :
  (0 <= workers)%Z -> consistent (initial address workers tasks).
Proof.
  intros Hn. constructor; simpl.
  - rewrite length_replicate. lia.
  - lia.
  - induction (Z.to_nat workers) as [|n IH]; simpl; [reflexivity|exact IH].
  - intros i wk Hi Hst. apply lookup_replicate in Hi as [-> _]. now destruct Hst.
  - split; reflexivity.
Qed.

(** A round that has just been released has a worker that is not back at
    its station. *)
Lemma released_not_waiting (k : Z) ws :
  (1 <= k <= Z.of_nat (length ws))%Z ->
  all_waiting (release (Z.to_nat k) ws) = false.
Proof.
  intros Hk. destruct (release (Z.to_nat k) ws !! 0%nat) as [wk|] eqn:H0.
  - apply (not_all_waiting _ 0%nat wk H0).
    apply release_round in H0. rewrite (proj1 H0) by lia. discriminate.
  - apply lookup_ge_None in H0. rewrite length_release in H0. lia.
Qed.

Lemma start_task_consistent (p : nat) (w w' : World) :
  consistent w -> start_task p w = Returns w' -> consistent w'.
Proof.
  intros Hw Hs. unfold start_task, deref in Hs. unroll.
  destruct (_task (gang w)) as [q|] eqn:Htk; simpl in Hs; [discriminate|].
  destruct (heap w !! p) as [t|] eqn:Hp; [|discriminate].
  destruct (completed t); [now injection Hs as <-|].
  case_bool_decide as Hst; simpl in Hs; [|discriminate].
  destruct (0 <? _) eqn:Hg; [|discriminate]. apply Z.ltb_lt in Hg.
  unfold set_gang in Hs. unroll.
  destruct (_gang t) as [g0|]; simpl in Hs; [discriminate|].
  injection Hs as <-. destruct Hw as [H1 H2 H3 H4 H5].
  unfold total_workers, requested_size in *.
  constructor; simpl.
  - now rewrite length_release.
  - lia.
  - now rewrite parked_release.
  - intros i wk Hi Hne. apply release_round in Hi.
    apply Z.nle_gt. intros Hge. rewrite (proj2 Hi Hge) in Hne. now destruct Hne.
  - eexists. rewrite lookup_insert_eq. split; [reflexivity|]. simpl.
    repeat split; try lia; try discriminate.
    + intros _. apply released_not_waiting. lia.
    + intros i wk Hi Hlt. apply release_round in Hi. now rewrite (proj1 Hi Hlt).
    + intros i wk Hi. apply release_round in Hi. unfold calls_so_far.
      destruct (Z.of_nat i <? _)%Z eqn:E.
      * apply Z.ltb_lt in E. now rewrite (proj1 Hi E).
      * apply Z.ltb_ge in E. now rewrite (proj2 Hi E).
Qed.

Lemma continue_task_consistent (p : nat) (w w' : World) :
  consistent w -> continue_task p w = Returns w' -> consistent w'.
Proof.
  intros Hw Hs. unfold continue_task, deref in Hs. unroll.
  destruct (heap w !! p) as [t|] eqn:Hp; [|discriminate].
  destruct (completed t); [now injection Hs as <-|].
  case_bool_decide as Htk; simpl in Hs; [|discriminate].
  destruct (yielded t) eqn:Hy; [|discriminate].
  injection Hs as <-. destruct Hw as [H1 H2 H3 H4 H5].
  rewrite Htk in H5. destruct H5 as (t' & Ht' & Hsz & Hg & HA & Hblk & HY & Hall & Hcalls).
  rewrite Hp in Ht'. injection Ht' as <-.
  constructor; simpl.
  - now rewrite length_release.
  - lia.
  - now rewrite parked_release.
  - intros i wk Hi Hne. apply release_round in Hi.
    apply Z.nle_gt. intros Hge. rewrite (proj2 Hi Hge) in Hne. now destruct Hne.
  - rewrite Htk. eexists. rewrite lookup_insert_eq. split; [reflexivity|]. simpl.
    repeat split; try lia; try discriminate; try assumption.
    + intros _. apply released_not_waiting. lia.
    + intros i wk Hi Hlt. apply release_round in Hi. now rewrite (proj1 Hi Hlt).
    + intros i wk Hi. apply release_round in Hi. unfold calls_so_far.
      destruct (Z.of_nat i <? _)%Z eqn:E.
      * apply Z.ltb_lt in E. now rewrite (proj1 Hi E).
      * apply Z.ltb_ge in E. now rewrite (proj2 Hi E).
Qed.

(** The status of the bound task changes, and with it whether the overseer
    waits. *)
Lemma set_status_consistent (w : World) (p : nat) (s : Status) (blocked : bool)
    (t : YieldingFlexibleGangTask) :
  consistent w ->
  _task (gang w) = Some p ->
  heap w !! p = Some t ->
  (blocked = false <-> s = YIELDED) ->
  (s = ACTIVE -> all_waiting (gang_workers (gang w)) = false) ->
  (forall i wk, gang_workers (gang w) !! i = Some wk ->
     (Z.of_nat i < _active_workers (gang w))%Z ->
     allowed s (station wk) = true) ->
  consistent (mkWorld (set_workers (gang_workers (gang w)) (_yielded_workers (gang w))
                                   blocked (gang w))
                      (<[p := set_status s t]> (heap w))).
Proof.
  intros [H1 H2 H3 H4 H5] Htk Hp Hblk' Hact Hall'.
  rewrite Htk in H5. destruct H5 as (t' & Ht' & Hsz & Hg & HA & Hblk & HY & Hall & Hcalls).
  rewrite Hp in Ht'. injection Ht' as <-.
  constructor; simpl; try assumption.
  rewrite Htk. eexists. rewrite lookup_insert_eq. split; [reflexivity|]. simpl.
  repeat split; try assumption; apply Hblk'.
Qed.

(** Worker [i] moves from one station to another. *)
Lemma set_station_consistent (w : World) (p i : nat)
    (t : YieldingFlexibleGangTask) (a b : GangWorker) (y : Z) :
  consistent w ->
  _task (gang w) = Some p ->
  heap w !! p = Some t ->
  gang_workers (gang w) !! i = Some a ->
  (y + Z.of_nat (at_yield a) = _yielded_workers (gang w) + Z.of_nat (at_yield b))%Z ->
  (Z.of_nat i < _active_workers (gang w))%Z ->
  allowed (_status t) (station b) = true ->
  work_calls b = calls_so_far (_active_workers (gang w)) i (station b) ->
  (_status t = ACTIVE ->
   all_waiting (<[i:=b]> (gang_workers (gang w))) = false) ->
  consistent (mkWorld (set_workers (<[i:=b]> (gang_workers (gang w))) y
                         (overseer_waits (gang w)) (gang w))
                      (heap w)).
Proof.
  intros [H1 H2 H3 H4 H5] Htk Hp Hi Hy Hlt Hb Hc Hact.
  rewrite Htk in H5. destruct H5 as (t' & Ht' & Hsz & Hg & HA & Hblk & HY & Hall & Hcalls).
  rewrite Hp in Ht'. injection Ht' as <-.
  pose proof (lookup_lt_Some _ _ _ Hi) as Hlen.
  assert (Hlook : forall j wk, <[i:=b]> (gang_workers (gang w)) !! j = Some wk ->
                    (j = i /\ wk = b) \/ (j <> i /\ gang_workers (gang w) !! j = Some wk)).
  { intros j wk Hj. destruct (decide (j = i)) as [->|Hne].
    - rewrite list_lookup_insert_eq in Hj by exact Hlen. left. split; congruence.
    - rewrite list_lookup_insert_ne in Hj by congruence. now right. }
  constructor; simpl.
  - now rewrite length_insert.
  - assumption.
  - pose proof (parked_insert _ _ _ b Hi). lia.
  - intros j wk Hj Hne. apply Hlook in Hj as [[-> ->]|[_ Hj]]; [exact Hlt|eauto].
  - rewrite Htk. exists t. repeat split; try assumption.
    + apply Hblk.
    + apply Hblk.
    + intros j wk Hj Hj'. apply Hlook in Hj as [[-> ->]|[_ Hj]]; [exact Hb|eauto].
    + intros j wk Hj. apply Hlook in Hj as [[-> ->]|[_ Hj]]; [exact Hc|eauto].
Qed.

Lemma bound_status_Some (w : World) (p : nat) (s : Status) :
  _task (gang w) = Some p -> bound_status w = Some s ->
  exists t, heap w !! p = Some t /\ _status t = s.
Proof.
  unfold bound_status, status_of. intros -> H. simpl in H.
  destruct (heap w !! p) as [t|]; [|discriminate].
  injection H as <-. now exists t.
Qed.

Lemma with_status_as_set (w : World) (p : nat) (s : Status)
    (t : YieldingFlexibleGangTask) :
  heap w !! p = Some t ->
  with_status p s w = mkWorld (gang w) (<[p := set_status s t]> (heap w)).
Proof. intros Hp. unfold with_status. now rewrite Hp. Qed.

Lemma set_workers_same (g : YieldingFlexibleWorkGang) :
  set_workers (gang_workers g) (_yielded_workers g) (overseer_waits g) g = g.
Proof. now destruct g. Qed.

Lemma yield_consistent (w w' : World) :
  consistent w -> yield w = Returns w' -> consistent w'.
Proof.
  intros Hw Hs. unfold yield in Hs.
  destruct (_task (gang w)) as [p|] eqn:Htk; [|now injection Hs as <-].
  destruct (bound_status w) as [s|] eqn:Hb; [|now injection Hs as <-].
  destruct (bound_status_Some _ _ _ Htk Hb) as (t & Hp & Hst).
  destruct s; injection Hs as <-; try assumption.
  rewrite (with_status_as_set w p YIELDING t Hp).
  pose proof (binding w Hw) as H5. rewrite Htk, Hp in H5.
  destruct H5 as (t' & [= <-] & _ & _ & _ & Hblk & _).
  pose proof (set_status_consistent w p YIELDING (overseer_waits (gang w)) t
                Hw Htk Hp) as Hset.
  rewrite set_workers_same in Hset. apply Hset; [|discriminate|reflexivity].
  rewrite Hblk, Hst. split; discriminate.
Qed.

Lemma abort_task_consistent (w w' : World) :
  consistent w -> abort_task w = Returns w' -> consistent w'.
Proof.
  intros Hw Hs. unfold abort_task in Hs.
  destruct (_task (gang w)) as [p|] eqn:Htk; [|now injection Hs as <-].
  destruct (bound_status w) as [s|] eqn:Hb; [|now injection Hs as <-].
  destruct (bound_status_Some _ _ _ Htk Hb) as (t & Hp & Hst).
  destruct s; injection Hs as <-; try assumption;
    rewrite (with_status_as_set w p ABORTING t Hp); unfold block; simpl;
    (apply (set_status_consistent w p ABORTING true t Hw Htk Hp);
     [split; discriminate|discriminate|reflexivity]).
Qed.

Lemma set_requested_size_consistent (p : nat) (sz : Z) (w w' : World) :
  consistent w -> call (SetRequestedSize p sz) w = Returns w' -> consistent w'.
Proof.
  intros [H1 H2 H3 H4 H5] Hs. simpl in Hs. unfold deref in Hs. unroll.
  destruct (heap w !! p) as [t|] eqn:Hp; [|discriminate].
  injection Hs as <-. constructor; simpl; try assumption.
  destruct (_task (gang w)) as [q|]; [|assumption].
  destruct H5 as (t' & Ht' & H5).
  destruct (decide (p = q)) as [->|Hne].
  - rewrite Hp in Ht'. injection Ht' as <-.
    eexists. rewrite lookup_insert_eq. split; [reflexivity|exact H5].
  - exists t'. rewrite lookup_insert_ne by exact Hne. now split.
Qed.

Lemma calls_in_round (k : Z) (i : nat) (st : Station) :
  (Z.of_nat i < k)%Z ->
  calls_so_far k i st = match st with RELEASED => 0%nat | _ => 1%nat end.
Proof.
  intros H. unfold calls_so_far. now rewrite (proj2 (Z.ltb_lt _ _) H).
Qed.

Ltac calls_of Hcalls Hi Hlt :=
  let Hn := fresh "Hn" in
  pose proof (Hcalls _ _ Hi) as Hn; simpl in Hn |- *;
  rewrite calls_in_round in Hn by exact Hlt;
  rewrite calls_in_round by exact Hlt; simpl; congruence.

Lemma work_begin_consistent (i : nat) (w w' : World) :
  consistent w -> work_begin i w = Some w' -> consistent w'.
Proof.
  intros Hw Hs. unfold work_begin in Hs.
  destruct (_task (gang w)) as [p|] eqn:Htk; [|discriminate].
  destruct (gang_workers (gang w) !! i) as [[st n]|] eqn:Hi; [|discriminate].
  destruct st; try discriminate. injection Hs as <-.
  pose proof (binding w Hw) as H5. rewrite Htk in H5.
  destruct H5 as (t & Hp & Hsz & Hg & HA & Hblk & HY & Hall & Hcalls).
  assert (Hlt : (Z.of_nat i < _active_workers (gang w))%Z).
  { apply (bench_waits w Hw i _ Hi). discriminate. }
  pose proof (Hall i _ Hi Hlt) as Hrel. simpl in Hrel.
  apply (set_station_consistent w p i t _ _ _ Hw Htk Hp Hi); simpl; try assumption.
  - reflexivity.
  - calls_of Hcalls Hi Hlt.
  - intros _. apply (not_all_waiting _ i (mkWorker WORKING (S n))); [|discriminate].
    apply list_lookup_insert_eq. now apply lookup_lt_Some in Hi.
Qed.

Lemma task_yield_consistent (i : nat) (w w' : World) :
  consistent w -> task_yield i w = Some w' -> consistent w'.
Proof.
  intros Hw Hs. unfold task_yield in Hs.
  destruct (_task (gang w)) as [p|] eqn:Htk; [|discriminate].
  destruct (bound_status w) as [s|] eqn:Hb; [|discriminate].
  destruct (bound_status_Some _ _ _ Htk Hb) as (t & Hp & Hst).
  destruct s; try discriminate.
  destruct (gang_workers (gang w) !! i) as [[st n]|] eqn:Hi; [|discriminate].
  destruct st; try discriminate. injection Hs as <-.
  pose proof (binding w Hw) as H5. rewrite Htk, Hp in H5.
  destruct H5 as (t' & [= <-] & Hsz & Hg & HA & Hblk & HY & Hall & Hcalls).
  assert (Hlt : (Z.of_nat i < _active_workers (gang w))%Z).
  { apply (bench_waits w Hw i _ Hi). discriminate. }
  apply (set_station_consistent w p i t _ _ _ Hw Htk Hp Hi); simpl; try assumption.
  - rewrite !at_yield_station. simpl. lia.
  - now rewrite Hst.
  - calls_of Hcalls Hi Hlt.
  - rewrite Hst. discriminate.
Qed.

Lemma task_abort_consistent (i : nat) (w w' : World) :
  consistent w -> task_abort i w = Some w' -> consistent w'.
Proof.
  intros Hw Hs. unfold task_abort in Hs.
  destruct (_task (gang w)) as [p|] eqn:Htk; [|discriminate].
  destruct (bound_status w) as [s|] eqn:Hb; [|discriminate].
  destruct (bound_status_Some _ _ _ Htk Hb) as (t & Hp & Hst).
  destruct s; try discriminate.
  destruct (gang_workers (gang w) !! i) as [[st n]|] eqn:Hi; [|discriminate].
  pose proof (binding w Hw) as H5. rewrite Htk, Hp in H5.
  destruct H5 as (t' & [= <-] & Hsz & Hg & HA & Hblk & HY & Hall & Hcalls).
  destruct st; try discriminate; injection Hs as <-.
  all: assert (Hlt : (Z.of_nat i < _active_workers (gang w))%Z)
    by (apply (bench_waits w Hw i _ Hi); discriminate).
  all: apply (set_station_consistent w p i t _ _ _ Hw Htk Hp Hi); simpl;
    try assumption; rewrite ?Hst; try reflexivity; try discriminate.
  all: try calls_of Hcalls Hi Hlt.
  rewrite !at_yield_station. simpl. lia.
Qed.

Lemma with_status_gang (p : nat) (s : Status) (w : World) :
  gang (with_status p s w) = gang w.
Proof. unfold with_status. now destruct (heap w !! p). Qed.

(** What [work_return] does, case by case. *)
Lemma work_return_cases (i : nat) (w w' : World) :
  work_return i w = Some w' ->
  exists p t n,
    _task (gang w) = Some p /\ heap w !! p = Some t
    /\ gang_workers (gang w) !! i = Some (mkWorker WORKING n)
    /\ let ws := <[i := mkWorker WAITING n]> (gang_workers (gang w)) in
       let w1 := mkWorld (set_workers ws (_yielded_workers (gang w))
                                      (overseer_waits (gang w)) (gang w))
                         (heap w) in
       (_status t = ACTIVE /\ all_waiting ws = true
        /\ w' = mkWorld (gang w1) (<[p := set_status COMPLETING t]> (heap w)))
       \/ (w' = w1 /\
           ((_status t = ACTIVE /\ all_waiting ws = false)
            \/ _status t = YIELDING \/ _status t = ABORTING)).
Proof.
  intros Hs. unfold work_return in Hs.
  destruct (_task (gang w)) as [p|] eqn:Htk; [|discriminate].
  destruct (bound_status w) as [s|] eqn:Hb; [|discriminate].
  destruct (bound_status_Some _ _ _ Htk Hb) as (t & Hp & Hst).
  destruct (gang_workers (gang w) !! i) as [[st n]|] eqn:Hi; [|discriminate].
  destruct st; try discriminate.
  exists p, t, n. split; [reflexivity|]. split; [exact Hp|].
  split; [reflexivity|]. simpl. rewrite Hst.
  destruct s; try discriminate.
  - destruct (all_waiting _) eqn:E; injection Hs as <-.
    + left. split; [reflexivity|]. split; [reflexivity|].
      unfold with_status. simpl. now rewrite Hp.
    + right. auto.
  - injection Hs as <-. right. auto.
  - injection Hs as <-. right. auto.
Qed.

Lemma work_return_consistent (i : nat) (w w' : World) :
  consistent w -> work_return i w = Some w' -> consistent w'.
Proof.
  intros Hw Hs.
  destruct (work_return_cases i w w' Hs) as (p & t & n & Htk & Hp & Hi & Hcases).
  simpl in Hcases.
  pose proof (binding w Hw) as H5. rewrite Htk, Hp in H5.
  destruct H5 as (t' & [= <-] & Hsz & Hg & HA & Hblk & HY & Hall & Hcalls).
  assert (Hlt : (Z.of_nat i < _active_workers (gang w))%Z).
  { apply (bench_waits w Hw i _ Hi). discriminate. }
  assert (Hw1 : (_status t = ACTIVE ->
                 all_waiting (<[i := mkWorker WAITING n]> (gang_workers (gang w))) = false) ->
                consistent (mkWorld (set_workers (<[i := mkWorker WAITING n]>
                                                    (gang_workers (gang w)))
                                       (_yielded_workers (gang w))
                                       (overseer_waits (gang w)) (gang w))
                                    (heap w))).
  { intros Hact.
    apply (set_station_consistent w p i t _ _ _ Hw Htk Hp Hi); simpl;
      try assumption.
    - reflexivity.
    - pose proof (Hall i _ Hi Hlt) as Ha. simpl in Ha. now destruct (_status t).
    - calls_of Hcalls Hi Hlt. }
  destruct Hcases as [(Hst & Hlast & ->)|[-> Hst]].
  - (* the last worker returns: the task finishes *)
    destruct Hw as [H1 H2 H3 H4 _].
    pose proof (lookup_lt_Some _ _ _ Hi) as Hlen.
    rewrite all_waiting_lookup in Hlast.
    constructor; simpl.
    + now rewrite length_insert.
    + assumption.
    + pose proof (parked_insert _ _ _ (mkWorker WAITING n) Hi) as Hpk.
      rewrite !at_yield_station in Hpk. simpl in Hpk. lia.
    + intros j wk Hj Hne. now destruct (Hne (Hlast j wk Hj)).
    + rewrite Htk. eexists. rewrite lookup_insert_eq. split; [reflexivity|]. simpl.
      repeat split; try assumption; try discriminate.
      * intros Hb. apply Hblk in Hb. congruence.
      * intros j wk Hj _. now rewrite (Hlast j wk Hj).
      * intros j wk Hj. destruct (decide (j = i)) as [->|Hne].
        -- rewrite list_lookup_insert_eq in Hj by exact Hlen. injection Hj as <-.
           calls_of Hcalls Hi Hlt.
        -- rewrite list_lookup_insert_ne in Hj by congruence.
           exact (Hcalls j wk Hj).
  - apply Hw1. intros Hact.
    destruct Hst as [[_ H]|[H|H]]; [exact H|congruence|congruence].
Qed.

Lemma all_stopped_allowed (ws : list GangWorker) :
  all_stopped ws = true ->
  forall i wk, ws !! i = Some wk -> allowed YIELDED (station wk) = true.
Proof.
  intros H i wk Hi. rewrite all_stopped_lookup in H.
  specialize (H i wk Hi). unfold stopped in H. now destruct (station wk).
Qed.

Lemma wait_for_gang_consistent (w w' : World) :
  consistent w -> wait_for_gang w = Some w' -> consistent w'.
Proof.
  intros Hw Hs. unfold wait_for_gang in Hs.
  destruct (overseer_waits (gang w)) eqn:Hblk'; [|discriminate].
  destruct (_task (gang w)) as [p|] eqn:Htk; [|discriminate].
  destruct (bound_status w) as [s|] eqn:Hb; [|discriminate].
  destruct (bound_status_Some _ _ _ Htk Hb) as (t & Hp & Hst).
  destruct s; try discriminate.
  - (* the round yielded *)
    destruct (all_stopped _) eqn:E; [|discriminate].
    injection Hs as <-. rewrite (with_status_as_set w p YIELDED t Hp).
    unfold unblock. simpl.
    apply (set_status_consistent w p YIELDED false t Hw Htk Hp);
      [now split|discriminate|].
    intros i wk Hi _. now apply (all_stopped_allowed _ E i).
  - (* the round was aborted *)
    destruct (all_waiting _) eqn:E; [|discriminate].
    destruct Hw as [H1 H2 H3 H4 _].
    injection Hs as <-. unfold unblock, reset, with_status. rewrite Hp. simpl.
    rewrite Htk, lookup_insert_eq. simpl.
    constructor; simpl; try assumption.
    + lia.
    + now rewrite all_waiting_parked.
    + intros i wk Hi Hne. rewrite all_waiting_lookup in E. now destruct (Hne (E i wk Hi)).
    + split; reflexivity.
  - (* the round completed *)
    destruct (all_waiting _) eqn:E; [|discriminate].
    destruct Hw as [H1 H2 H3 H4 _].
    injection Hs as <-. unfold unblock, reset, with_status. rewrite Hp. simpl.
    rewrite Htk, lookup_insert_eq. simpl.
    constructor; simpl; try assumption.
    + lia.
    + now rewrite all_waiting_parked.
    + intros i wk Hi Hne. rewrite all_waiting_lookup in E. now destruct (Hne (E i wk Hi)).
    + split; reflexivity.
Qed.

Create HintDb gang.

#[local] Hint Resolve start_task_consistent continue_task_consistent
  yield_consistent abort_task_consistent set_requested_size_consistent
  work_begin_consistent work_return_consistent task_yield_consistent
  task_abort_consistent wait_for_gang_consistent : gang.

Lemma fire_consistent (e : Event) (w w' : World) :
  consistent w -> fire e w = Some w' -> consistent w'.
Proof.
  intros Hw Hf. destruct e as [c|m]; simpl in Hf.
  - destruct (call c w) as [w1|msg] eqn:Hc; [|discriminate].
    injection Hf as <-. destruct c; simpl in Hc; eauto with gang.
  - destruct m; simpl in Hf; eauto with gang.
Qed.

Lemma steps_consistent (w w' : World) :
  consistent w -> rtc step w w' -> consistent w'.
Proof.
  intros Hw Hsteps. induction Hsteps as [|w1 w2 w3 [e He] _ IH]; [exact Hw|].
  apply IH. eapply fire_consistent; eassumption.
Qed.

Lemma run_steps (schedule : list Event) (w w' : World) :
  run schedule w = Some w' -> rtc step w w'.
Proof.
  revert w. induction schedule as [|e rest IH]; intros w Hr; simpl in Hr.
  - injection Hr as <-. constructor.
  - destruct (fire e w) as [w1|] eqn:He; [|discriminate].
    apply rtc_l with w1; [now exists e|now apply IH].
Qed.

End Consistency.

Section StatusGraph.
Import YieldingWorkgroup.

Lemma status_of_insert (w : World) (g : YieldingFlexibleWorkGang) (q p : nat)
    (t : YieldingFlexibleGangTask) :
  status_of (mkWorld g (<[q := t]> (heap w))) p
  = if decide (q = p) then Some (_status t) else status_of w p.
Proof.
  unfold status_of. simpl. rewrite lookup_insert.
  now destruct (decide (q = p)).
Qed.

Lemma status_of_with_status (q p : nat) (s1 : Status) (w : World)
    (t : YieldingFlexibleGangTask) :
  heap w !! q = Some t ->
  status_of (with_status q s1 w) p
  = if decide (q = p) then Some s1 else status_of w p.
Proof.
  intros Hq. unfold with_status. rewrite Hq. now rewrite status_of_insert.
Qed.

Lemma status_of_reset (w : World) (p : nat) :
  status_of (reset w) p = status_of w p.
Proof.
  unfold reset. destruct (_task (gang w)) as [q|]; [|reflexivity].
  destruct (heap w !! q) as [t|] eqn:Hq; [|reflexivity].
  rewrite status_of_insert. simpl.
  destruct (decide (q = p)) as [<-|]; [|reflexivity].
  unfold status_of. now rewrite Hq.
Qed.

Lemma status_of_unblock (w : World) (p : nat) :
  status_of (unblock w) p = status_of w p.
Proof. reflexivity. Qed.

Lemma status_of_block (w : World) (p : nat) :
  status_of (block w) p = status_of w p.
Proof. reflexivity. Qed.

Lemma drives_transition (e : Event) (p : nat) (s s' : Status) :
  drives e p s s' = true -> transition s s' = true.
Proof.
  destruct s, s'; simpl; try discriminate; reflexivity.
Qed.

Lemma transition_not_terminal (s s' : Status) :
  transition s s' = true -> terminal s = false.
Proof. destruct s, s'; simpl; try discriminate; reflexivity. Qed.

(** The two transitions that are not among those of section 3. *)
Lemma transition_legal (s s' : Status) :
  transition s s' = true <->
  legal s s' = true \/ ((s = YIELDED \/ s = COMPLETING) /\ s' = ABORTING).
Proof.
  destruct s, s'; simpl; split; intros H; auto;
    try (destruct H as [H|[[H1|H1] H2]]; discriminate).
Qed.

(** What one event does to the status of one task. *)
Lemma fire_status (e : Event) (w w' : World) (p : nat) (s : Status) :
  fire e w = Some w' -> status_of w p = Some s ->
  exists s', status_of w' p = Some s'
    /\ (s' = s \/ drives e p s s' = true)
    /\ (s' <> s -> s' = YIELDED ->
        all_stopped (gang_workers (gang w)) = true)
    /\ (s' <> s -> terminal s' = true ->
        all_waiting (gang_workers (gang w)) = true).
Proof.
  intros Hf Hs.
  assert (Hsame : forall w1, status_of w1 p = status_of w p ->
            exists s', status_of w1 p = Some s'
              /\ (s' = s \/ drives e p s s' = true)
              /\ (s' <> s -> s' = YIELDED ->
                  all_stopped (gang_workers (gang w)) = true)
              /\ (s' <> s -> terminal s' = true ->
                  all_waiting (gang_workers (gang w)) = true)).
  { intros w1 H1. exists s. rewrite H1, Hs. repeat split; auto; now intros []. }
  destruct e as [c|m]; simpl in Hf.
  - destruct (call c w) as [w1|msg] eqn:Hc; [|discriminate].
    injection Hf as <-. destruct c as [q|q| | |q sz]; simpl in Hc.
    + (* start_task *)
      unfold start_task, deref in Hc. unroll.
      destruct (_task (gang w)); simpl in Hc; [discriminate|].
      destruct (heap w !! q) as [t|] eqn:Hq; [|discriminate].
      destruct (completed t); [injection Hc as <-; now apply Hsame|].
      case_bool_decide as Hst; simpl in Hc; [|discriminate].
      destruct (0 <? _)%Z; [|discriminate].
      unfold set_gang in Hc. unroll.
      destruct (_gang t); simpl in Hc; [discriminate|].
      injection Hc as <-. rewrite status_of_insert. simpl.
      destruct (decide (q = p)) as [->|Hne]; [|now apply Hsame].
      unfold status_of in Hs. rewrite Hq in Hs. injection Hs as <-.
      exists ACTIVE. unfold status in *. rewrite Hst. simpl.
      rewrite bool_decide_eq_true_2 by reflexivity.
      repeat split; auto; discriminate.
    + (* continue_task *)
      unfold continue_task, deref in Hc. unroll.
      destruct (heap w !! q) as [t|] eqn:Hq; [|discriminate].
      destruct (completed t); [injection Hc as <-; now apply Hsame|].
      case_bool_decide as Htk; simpl in Hc; [|discriminate].
      destruct (yielded t) eqn:Hy; [|discriminate].
      injection Hc as <-. rewrite status_of_insert. simpl.
      destruct (decide (q = p)) as [->|Hne]; [|now apply Hsame].
      unfold status_of in Hs. rewrite Hq in Hs. injection Hs as <-.
      exists ACTIVE. unfold yielded, status in *.
      destruct (_status t); try discriminate. simpl.
      rewrite bool_decide_eq_true_2 by reflexivity.
      repeat split; auto; discriminate.
    + (* yield *)
      unfold yield in Hc.
      destruct (_task (gang w)) as [q|] eqn:Htk; [|injection Hc as <-; now apply Hsame].
      destruct (bound_status w) as [sb|] eqn:Hb; [|injection Hc as <-; now apply Hsame].
      destruct (bound_status_Some _ _ _ Htk Hb) as (t & Hq & Hst).
      destruct sb; injection Hc as <-; try now apply Hsame.
      rewrite (status_of_with_status _ _ _ _ t Hq).
      destruct (decide (q = p)) as [->|Hne]; [|now apply Hsame].
      unfold status_of in Hs. rewrite Hq in Hs. injection Hs as <-.
      exists YIELDING. unfold status. rewrite Hst.
      repeat split; auto; discriminate.
    + (* abort_task *)
      unfold abort_task in Hc.
      destruct (_task (gang w)) as [q|] eqn:Htk; [|injection Hc as <-; now apply Hsame].
      destruct (bound_status w) as [sb|] eqn:Hb; [|injection Hc as <-; now apply Hsame].
      destruct (bound_status_Some _ _ _ Htk Hb) as (t & Hq & Hst).
      destruct sb; injection Hc as <-; try now apply Hsame.
      all: rewrite status_of_block, (status_of_with_status _ _ _ _ t Hq).
      all: destruct (decide (q = p)) as [->|Hne]; [|now apply Hsame].
      all: unfold status_of in Hs; rewrite Hq in Hs; injection Hs as <-.
      all: exists ABORTING; unfold status; rewrite Hst.
      all: repeat split; auto; discriminate.
    + (* set_requested_size *)
      unfold deref in Hc. unroll.
      destruct (heap w !! q) as [t|] eqn:Hq; [|discriminate].
      injection Hc as <-. rewrite status_of_insert. simpl.
      destruct (decide (q = p)) as [->|Hne]; [|now apply Hsame].
      unfold status_of in Hs. rewrite Hq in Hs. injection Hs as <-.
      exists (_status t). unfold status. repeat split; auto; now intros [].
  - destruct m as [i|i|i|i|]; simpl in Hf.
    + (* work_begin *)
      unfold work_begin in Hf.
      destruct (_task (gang w)); [|discriminate].
      destruct (gang_workers (gang w) !! i) as [[[] ?]|]; try discriminate.
      injection Hf as <-. now apply Hsame.
    + (* work_return *)
      destruct (work_return_cases i w w' Hf) as (q & t & n & Htk & Hq & Hi & Hcases).
      simpl in Hcases. destruct Hcases as [(Hst & Hlast & ->)|[-> _]];
        [|now apply Hsame].
      rewrite status_of_insert. simpl.
      destruct (decide (q = p)) as [->|Hne]; [|now apply Hsame].
      unfold status_of in Hs. rewrite Hq in Hs. injection Hs as <-.
      exists COMPLETING. unfold status. rewrite Hst.
      repeat split; auto; discriminate.
    + (* task_yield *)
      unfold task_yield in Hf.
      destruct (_task (gang w)); [|discriminate].
      destruct (bound_status w) as [[]|]; try discriminate.
      destruct (gang_workers (gang w) !! i) as [[[] ?]|]; try discriminate.
      injection Hf as <-. now apply Hsame.
    + (* task_abort *)
      unfold task_abort in Hf.
      destruct (_task (gang w)); [|discriminate].
      destruct (bound_status w) as [[]|]; try discriminate.
      destruct (gang_workers (gang w) !! i) as [[[] ?]|]; try discriminate.
      all: injection Hf as <-; now apply Hsame.
    + (* wait_for_gang *)
      unfold wait_for_gang in Hf.
      destruct (overseer_waits (gang w)); [|discriminate].
      destruct (_task (gang w)) as [q|] eqn:Htk; [|discriminate].
      destruct (bound_status w) as [sb|] eqn:Hb; [|discriminate].
      destruct (bound_status_Some _ _ _ Htk Hb) as (t & Hq & Hst).
      destruct sb; try discriminate.
      * destruct (all_stopped _) eqn:E; [|discriminate].
        injection Hf as <-.
        rewrite status_of_unblock, (status_of_with_status _ _ _ _ t Hq).
        destruct (decide (q = p)) as [->|Hne]; [|now apply Hsame].
        unfold status_of in Hs. rewrite Hq in Hs. injection Hs as <-.
        exists YIELDED. unfold status. rewrite Hst.
        repeat split; auto; discriminate.
      * destruct (all_waiting _) eqn:E; [|discriminate].
        injection Hf as <-.
        rewrite status_of_unblock, status_of_reset,
          (status_of_with_status _ _ _ _ t Hq).
        destruct (decide (q = p)) as [->|Hne]; [|now apply Hsame].
        unfold status_of in Hs. rewrite Hq in Hs. injection Hs as <-.
        exists ABORTED. unfold status. rewrite Hst.
        repeat split; auto; discriminate.
      * destruct (all_waiting _) eqn:E; [|discriminate].
        injection Hf as <-.
        rewrite status_of_unblock, status_of_reset,
          (status_of_with_status _ _ _ _ t Hq).
        destruct (decide (q = p)) as [->|Hne]; [|now apply Hsame].
        unfold status_of in Hs. rewrite Hq in Hs. injection Hs as <-.
        exists COMPLETED. unfold status. rewrite Hst.
        repeat split; auto; discriminate.
Qed.

End StatusGraph.

Section GangInvariants.
Import YieldingWorkgroup.

Lemma reachable_consistent (w : World) : reachable w -> consistent w.
Proof.
  intros (address & workers & tasks & Hn & Hsteps).
  eapply steps_consistent; [|exact Hsteps]. now apply consistent_initial.
Qed.

Lemma run_after (schedule : list Event) (w : World) :
  is_Some (run schedule w) -> run schedule w = Some (after schedule w).
Proof. intros [w' H]. unfold after. now rewrite H. Qed.

Lemma sample_reachable (schedule : list Event) :
  is_Some (run schedule sample_world) -> reachable (after schedule sample_world).
Proof.
  intros H. exists 7%nat, 3, sample_tasks. split; [lia|].
  apply (run_steps schedule). now apply run_after.
Qed.

Lemma steps_status (w w' : World) (p : nat) (s : Status) :
  rtc step w w' -> status_of w p = Some s ->
  exists s', status_of w' p = Some s' /\ rtc transition_edge s s'.
Proof.
  intros Hsteps. revert s.
  induction Hsteps as [w|w1 w2 w3 [e He] _ IH]; intros s Hs.
  - exists s. split; [exact Hs|constructor].
  - destruct (fire_status e w1 w2 p s He Hs) as (s2 & Hs2 & Hedge & _).
    destruct (IH s2 Hs2) as (s3 & Hs3 & Hpath).
    exists s3. split; [exact Hs3|].
    destruct Hedge as [->|Hd]; [exact Hpath|].
    apply rtc_l with s2; [|exact Hpath]. exact (drives_transition _ _ _ _ Hd).
Qed.

Lemma terminal_absorbing (s s' : Status) :
  terminal s = true -> rtc transition_edge s s' -> s' = s.
Proof.
  intros Ht Hpath. destruct Hpath as [|s1 s2 s3 Hedge _]; [reflexivity|].
  apply transition_not_terminal in Hedge. congruence.
Qed.




Lemma yielded_le_active (w : World) :
  consistent w ->
  (0 <= _yielded_workers (gang w) <= _active_workers (gang w))%Z.
Proof.
  intros Hw. rewrite (yielded_counted w Hw). split; [lia|].
  assert (parked_at_yield (gang_workers (gang w))
          <= Z.to_nat (_active_workers (gang w)))%nat.
  { apply parked_le. intros i wk Hi Hy.
    assert (Z.of_nat i < _active_workers (gang w))%Z; [|lia].
    apply (bench_waits w Hw i wk Hi). rewrite Hy. discriminate. }
  pose proof (active_bounds w Hw). lia.
Qed.

Lemma yielded_after_reset (w : World) :
  _yielded_workers (gang (unblock (reset w))) = 0.
Proof. unfold unblock, reset. simpl. now repeat case_match. Qed.

(** The yielded workers are all among the active ones. *)
Lemma yielded_among_active (w : World) :
  consistent w ->
  _yielded_workers (gang w)
  = Z.of_nat (parked_at_yield (take (Z.to_nat (_active_workers (gang w)))
                                    (gang_workers (gang w)))).
Proof.
  intros Hw. rewrite (yielded_counted w Hw). f_equal. symmetry.
  apply parked_take. intros i wk Hi Hy.
  assert (Z.of_nat i < _active_workers (gang w))%Z; [|lia].
  apply (bench_waits w Hw i wk Hi). rewrite Hy. discriminate.
Qed.

Lemma parked_and_back_le ws :
  (parked_at_yield ws + back_at_station ws <= length ws)%nat.
Proof.
  induction ws as [|x ws IH]; simpl; [lia|].
  rewrite at_yield_station, at_station_station. destruct (station x); lia.
Qed.

(** When the active workers have all stopped, each is counted as yielded
    or as returned. *)
Lemma stopped_round_counted (w : World) :
  consistent w ->
  (forall i wk, gang_workers (gang w) !! i = Some wk ->
     (Z.of_nat i < _active_workers (gang w))%Z -> stopped wk = true) ->
  _yielded_workers (gang w) + returned_workers (gang w) = _active_workers (gang w).
Proof.
  intros Hw Hstop. rewrite (yielded_among_active w Hw). unfold returned_workers.
  pose proof (active_bounds w Hw) as Hb. pose proof (workers_counted w Hw) as Hc.
  assert (Hall : all_stopped (take (Z.to_nat (_active_workers (gang w)))
                                   (gang_workers (gang w))) = true).
  { apply all_stopped_lookup. intros i wk Hi.
    apply lookup_take_Some in Hi as [Hi Hlt]. apply (Hstop i wk Hi). lia. }
  pose proof (stopped_counted _ Hall) as Hsum.
  rewrite length_take in Hsum. lia.
Qed.




End GangInvariants.

Section Dispatch.
Import YieldingWorkgroup.

Example after_dispatch :
  summary (after dispatch sample_world) = (Some ACTIVE, 2, 0, true, [1; 1; 0]%nat).
Proof. reflexivity. Qed.

Example after_yielding_round :
  summary (after yielding_round sample_world)
  = (Some YIELDED, 2, 2, false, [1; 1; 0]%nat).
Proof. reflexivity. Qed.

Example after_completing_round :
  summary (after completing_round sample_world)
  = (Some COMPLETED, 0, 0, false, [1; 1; 0]%nat).
Proof. reflexivity. Qed.

Example after_aborted_round :
  summary (after aborted_round sample_world)
  = (Some ABORTED, 0, 0, false, [1; 1; 0]%nat).
Proof. reflexivity. Qed.

Example after_round_trip :
  summary (after round_trip sample_world)
  = (Some COMPLETED, 0, 0, false, [1; 1; 0]%nat).
Proof. reflexivity. Qed.

Example after_mixed_round :
  summary (after mixed_round sample_world)
  = (Some YIELDED, 2, 1, false, [1; 1; 0]%nat).
Proof. reflexivity. Qed.

Example after_aborted_after_yield :
  summary (after aborted_after_yield sample_world)
  = (Some ABORTED, 0, 0, false, [1; 1; 0]%nat).
Proof. reflexivity. Qed.

(** A worker returns from [work] while a yield is pending; the other
    yields. *)
Example return_under_pending_yield :
  summary (after (dispatch ++ [inl Yield; inr (WorkReturn 0%nat);
                               inr (TaskYield 1%nat); inr WaitForGang])
                 sample_world)
  = (Some YIELDED, 2, 1, false, [1; 1; 0]%nat).
Proof. reflexivity. Qed.

(** An abort issued after one worker has returned reaches the worker that
    is still inside [work]. *)
Example abort_after_a_worker_returned :
  summary (after (dispatch ++ [inr (WorkReturn 0%nat); inl AbortTask;
                               inr (TaskAbort 1%nat); inr WaitForGang])
                 sample_world)
  = (Some ABORTED, 0, 0, false, [1; 1; 0]%nat).
Proof. reflexivity. Qed.

Example after_aborted_while_completing :
  summary (after aborted_while_completing sample_world)
  = (Some ABORTED, 0, 0, false, [1; 1; 0]%nat).
Proof. reflexivity. Qed.

(** A mixed round is resumed: every active worker is released again. *)
Example mixed_round_is_continued :
  summary (after (mixed_round ++
                  [inl (ContinueTask 10%nat); inr (WorkBegin 0%nat);
                   inr (WorkBegin 1%nat); inr (WorkReturn 1%nat);
                   inr (WorkReturn 0%nat); inr WaitForGang])
                 sample_world)
  = (Some COMPLETED, 0, 0, false, [1; 1; 0]%nat).
Proof. reflexivity. Qed.

Example barrier_holds_while_a_worker_runs :
  wait_for_gang (after (dispatch ++ [inr (WorkReturn 0%nat)]) sample_world) = None.
Proof. reflexivity. Qed.

Example run_task_is_refused :
  run_task (gang sample_world) 10%nat = Fatal "Use start_task instead".
Proof. reflexivity. Qed.

Example completed_task_is_not_resumed :
  call (ContinueTask 10%nat) (after completing_round sample_world)
  = Returns (after completing_round sample_world).
Proof. reflexivity. Qed.

Example second_task_on_busy_gang :
  call (StartTask 11%nat) (after dispatch sample_world)
  = Fatal "Gang currently tied to a task".
Proof. reflexivity. Qed.

Example default_request_grants_nobody :
  call (StartTask 11%nat) sample_world = Fatal "No workers granted".
Proof. reflexivity. Qed.

(** C3. [continue_task] on a task whose status is COMPLETED returns at
    once and leaves the world as it was: the status of the task, the
    counters of the gang and the stations and call counts of the workers
    are unchanged, and so they are after any number of repeated calls. *)
Theorem continue_task_completed_is_idempotent
    (w : World) (p : nat) (t : YieldingFlexibleGangTask) (n : nat) :
  heap w !! p = Some t ->
  status t = COMPLETED ->
  continue_task p w = Returns w
  /\ repeatedly n (continue_task p) w = Returns w.
Proof.
  intros Hp Hst.
  assert (Hone : continue_task p w = Returns w).
  { unfold continue_task, deref. unroll. rewrite Hp. unfold completed.
    unfold status in Hst. now rewrite Hst. }
  split; [exact Hone|].
  induction n as [|n IH]; simpl; [reflexivity|].
  rewrite Hone. unroll. exact IH.
Qed.

Lemma continue_task_completed_is_idempotent_witness :
  repeatedly 5 (continue_task 10%nat) (after completing_round sample_world)
  = Returns (after completing_round sample_world).
Proof.
  apply (proj2 (continue_task_completed_is_idempotent
                  (after completing_round sample_world) 10%nat
                  (mkTask COMPLETED None 2 2) 5 eq_refl eq_refl)).
Defined.

(** C8. On a gang that is bound to a task, [start_task] halts with a fatal
    assertion whatever task it is given: nothing is queued and the world is
    not changed. And [set_gang] with a non-null gang on a task whose gang
    reference is already non-null fires its assertion. *)
Theorem start_task_on_busy_gang_is_fatal
    (w : World) (running new_task : nat) :
  _task (gang w) = Some running ->
  start_task new_task w = Fatal "Gang currently tied to a task"
  /\ fire (inl (StartTask new_task)) w = None
  /\ forall (t : YieldingFlexibleGangTask) (g g' : nat),
      gang_of t = Some g ->
      set_gang (Some g') t = Fatal "Clobber without intermediate reset?".
Proof.
  intros Htk.
  assert (Hs : start_task new_task w = Fatal "Gang currently tied to a task").
  { unfold start_task. unroll. now rewrite Htk. }
  split; [exact Hs|]. split.
  - simpl. now rewrite Hs.
  - intros t g g' Hg. unfold set_gang, gang_of in *. unroll. now rewrite Hg.
Qed.

Lemma start_task_on_busy_gang_is_fatal_witness :
  _task (gang (after dispatch sample_world)) = Some 10%nat /\
  start_task 11%nat (after dispatch sample_world)
  = Fatal "Gang currently tied to a task".
Proof.
  split; [reflexivity|].
  apply (proj1 (start_task_on_busy_gang_is_fatal
                  (after dispatch sample_world) 10%nat 11%nat eq_refl)).
Defined.

End Dispatch.

Section Rounds.
Import YieldingWorkgroup.

Lemma first_worker (w : World) (p : nat) :
  consistent w -> _task (gang w) = Some p ->
  exists wk, gang_workers (gang w) !! 0%nat = Some wk.
Proof.
  intros Hw Htk. pose proof (binding w Hw) as H5. rewrite Htk in H5.
  destruct H5 as (t & _ & _ & _ & HA & _).
  destruct (gang_workers (gang w) !! 0%nat) as [wk|] eqn:H0; [now exists wk|].
  apply lookup_ge_None in H0.
  pose proof (workers_counted w Hw). pose proof (active_bounds w Hw). lia.
Qed.

Lemma running_status (w : World) (p : nat) :
  consistent w -> _task (gang w) = Some p -> overseer_waits (gang w) = true ->
  exists t, heap w !! p = Some t /\
    (_status t = ACTIVE \/ _status t = YIELDING \/
     _status t = ABORTING \/ _status t = COMPLETING).
Proof.
  intros Hw Htk Hblk. destruct (first_worker w p Hw Htk) as [wk H0].
  pose proof (binding w Hw) as H5. rewrite Htk in H5.
  destruct H5 as (t & Hp & _ & _ & HA & Hb & _ & Hall & _).
  exists t. split; [exact Hp|].
  specialize (Hall 0%nat wk H0 ltac:(lia)).
  destruct (_status t) eqn:Hst; auto;
    try (destruct (station wk); discriminate).
  destruct Hb as [_ Hb]. rewrite Hb in Hblk by reflexivity. discriminate.
Qed.

(** A step of the round either is the barrier returning, with every worker
    of the round having entered [work], or leaves the round in progress. *)
Lemma fire_in_round (e : Event) (w w' : World) (p : nat) :
  consistent w -> overseer_waits (gang w) = true -> _task (gang w) = Some p ->
  fire e w = Some w' ->
  (e = inr WaitForGang
   /\ gang_workers (gang w') = gang_workers (gang w)
   /\ overseer_waits (gang w') = false
   /\ all_stopped (gang_workers (gang w)) = true
   /\ exists s', status_of w' p = Some s'
                 /\ (s' = YIELDED \/ s' = ABORTED \/ s' = COMPLETED))
  \/ (e <> inr WaitForGang
      /\ _task (gang w') = Some p
      /\ _active_workers (gang w') = _active_workers (gang w)
      /\ overseer_waits (gang w') = true).
Proof.
  intros Hw Hblk Htk Hf.
  destruct (running_status w p Hw Htk Hblk) as (t & Hp & Hrun).
  assert (Hb : bound_status w = Some (_status t)).
  { unfold bound_status, status_of. rewrite Htk. simpl. now rewrite Hp. }
  destruct e as [c|m]; simpl in Hf.
  - right. split; [discriminate|].
    destruct (call c w) as [w1|msg] eqn:Hc; [|discriminate].
    injection Hf as <-. destruct c as [q|q| | |q sz]; simpl in Hc.
    + unfold start_task in Hc. unroll. rewrite Htk in Hc. discriminate.
    + unfold continue_task, deref in Hc. unroll.
      destruct (heap w !! q) as [t'|] eqn:Hq; [|discriminate].
      destruct (completed t'); [injection Hc as <-; auto|].
      case_bool_decide as Hq'; simpl in Hc; [|discriminate].
      rewrite Htk in Hq'. injection Hq' as <-. rewrite Hp in Hq. injection Hq as <-.
      unfold yielded in Hc.
      destruct Hrun as [H|[H|[H|H]]]; rewrite H in Hc; discriminate.
    + unfold yield in Hc. rewrite Htk, Hb in Hc.
      destruct (_status t); injection Hc as <-; auto.
      rewrite with_status_gang. auto.
    + unfold abort_task in Hc. rewrite Htk, Hb in Hc.
      destruct (_status t); injection Hc as <-; auto;
        unfold block; simpl; rewrite with_status_gang; auto.
    + unfold deref in Hc. unroll.
      destruct (heap w !! q); [|discriminate]. injection Hc as <-. auto.
  - destruct m as [i|i|i|i|]; simpl in Hf.
    + right. split; [discriminate|]. unfold work_begin in Hf. rewrite Htk in Hf.
      destruct (gang_workers (gang w) !! i) as [[[] ?]|]; try discriminate.
      injection Hf as <-. auto.
    + right. split; [discriminate|].
      destruct (work_return_cases i w w' Hf) as (q & t' & n & Htk' & _ & _ & Hcases).
      rewrite Htk in Htk'. injection Htk' as <-. simpl in Hcases.
      destruct Hcases as [(_ & _ & ->)|[-> _]]; simpl; auto.
    + right. split; [discriminate|]. unfold task_yield in Hf. rewrite Htk, Hb in Hf.
      destruct (_status t); try discriminate.
      destruct (gang_workers (gang w) !! i) as [[[] ?]|]; try discriminate.
      injection Hf as <-. auto.
    + right. split; [discriminate|]. unfold task_abort in Hf. rewrite Htk, Hb in Hf.
      destruct (_status t); try discriminate.
      destruct (gang_workers (gang w) !! i) as [[[] ?]|]; try discriminate;
        injection Hf as <-; auto.
    + left. split; [reflexivity|].
      unfold wait_for_gang in Hf. rewrite Hblk, Htk, Hb in Hf.
      destruct (_status t) eqn:Hst; try discriminate.
      * destruct (all_stopped _) eqn:E; [|discriminate].
        injection Hf as <-.
        rewrite status_of_unblock, (status_of_with_status _ _ _ _ t Hp).
        rewrite decide_True by reflexivity.
        unfold unblock. simpl. rewrite with_status_gang.
        repeat split; eauto.
      * destruct (all_waiting _) eqn:E; [|discriminate].
        injection Hf as <-.
        rewrite status_of_unblock, status_of_reset,
          (status_of_with_status _ _ _ _ t Hp).
        rewrite decide_True by reflexivity.
        split; [unfold unblock, reset; simpl; rewrite with_status_gang;
                now repeat case_match|].
        split; [reflexivity|]. split; [|eauto].
        now apply waiting_stopped.
      * destruct (all_waiting _) eqn:E; [|discriminate].
        injection Hf as <-.
        rewrite status_of_unblock, status_of_reset,
          (status_of_with_status _ _ _ _ t Hp).
        rewrite decide_True by reflexivity.
        split; [unfold unblock, reset; simpl; rewrite with_status_gang;
                now repeat case_match|].
        split; [reflexivity|]. split; [|eauto].
        now apply waiting_stopped.
Qed.

(** Where a round stands: in progress on task [p] with [n] workers, or
    over, every one of the [n] workers having entered [work] once and no
    other worker at all. *)
Lemma round_invariant (p : nat) (n : Z) (w1 w2 : World) :
  consistent w1 -> overseer_waits (gang w1) = true ->
  _task (gang w1) = Some p -> _active_workers (gang w1) = n ->
  rtc round_step w1 w2 ->
  consistent w2 /\
  ((overseer_waits (gang w2) = true /\ _task (gang w2) = Some p
    /\ _active_workers (gang w2) = n)
   \/ (overseer_waits (gang w2) = false
       /\ (exists s', status_of w2 p = Some s'
                      /\ (s' = YIELDED \/ s' = ABORTED \/ s' = COMPLETED))
       /\ (n <= Z.of_nat (length (gang_workers (gang w2))))%Z
       /\ forall i wk, gang_workers (gang w2) !! i = Some wk ->
            work_calls wk = if (Z.of_nat i <? n)%Z then 1%nat else 0%nat)).
Proof.
  intros Hw Hblk Htk HA Hsteps. revert Hw Hblk Htk HA.
  induction Hsteps as [w|w1 w2 w3 [_ [e He]] Hrest IH]; intros Hw Hblk Htk HA.
  - split; [exact Hw|]. left. auto.
  - pose proof (fire_consistent e w1 w2 Hw He) as Hw2.
    destruct (fire_in_round e w1 w2 p Hw Hblk Htk He)
      as [(_ & Hws & Hblk2 & Hstop & Hs')|(_ & Htk2 & HA2 & Hblk2)].
    + destruct Hrest as [|w2 w3 w4 [Hblk3 _] _]; [|congruence].
      split; [exact Hw2|]. right. split; [exact Hblk2|]. split; [exact Hs'|].
      split.
      { rewrite Hws. pose proof (workers_counted w1 Hw).
        pose proof (active_bounds w1 Hw). lia. }
      intros i wk Hi. rewrite Hws in Hi.
      pose proof (binding w1 Hw) as H5. rewrite Htk in H5.
      destruct H5 as (t & _ & _ & _ & _ & _ & _ & _ & Hcalls).
      rewrite (Hcalls i wk Hi), HA. unfold calls_so_far.
      destruct (Z.of_nat i <? n)%Z; [|reflexivity].
      rewrite all_stopped_lookup in Hstop. specialize (Hstop i wk Hi).
      unfold stopped in Hstop. now destruct (station wk).
    + apply IH; congruence.
Qed.

Lemma find_movable (s : Status) (ws : list GangWorker) :
  (exists i wk, ws !! i = Some wk /\ movable s (station wk) = true)
  \/ (forall i wk, ws !! i = Some wk -> movable s (station wk) = false).
Proof.
  induction ws as [|x ws IH].
  - right. intros i wk Hi. discriminate.
  - destruct (movable s (station x)) eqn:Hx.
    + left. exists 0%nat, x. now split.
    + destruct IH as [(i & wk & Hi & Hm)|Hnone].
      * left. exists (S i), wk. now split.
      * right. intros [|i] wk Hi; simpl in Hi; [now injection Hi as <-|eauto].
Qed.

(** No round gets stuck: while the overseer waits, some worker has a move
    or the barrier can return. *)
Lemma round_progress (w : World) :
  consistent w -> overseer_waits (gang w) = true ->
  exists m w', move m w = Some w'.
Proof.
  intros Hw Hblk. pose proof (binding w Hw) as H5.
  destruct (_task (gang w)) as [p|] eqn:Htk; [|destruct H5; congruence].
  destruct (running_status w p Hw Htk Hblk) as (t & Hp & Hrun).
  destruct H5 as (t' & Ht' & _ & _ & HA & _ & Hact & Hall & _).
  rewrite Hp in Ht'. injection Ht' as <-.
  assert (Hb : bound_status w = Some (_status t)).
  { unfold bound_status, status_of. rewrite Htk. simpl. now rewrite Hp. }
  destruct (find_movable (_status t) (gang_workers (gang w)))
    as [(i & [st k] & Hi & Hm)|Hnone].
  - exists (next_move i st). simpl in Hm.
    destruct st, Hrun as [H|[H|[H|H]]]; rewrite ?H in Hm; rewrite H in Hb;
      try discriminate; simpl;
      unfold work_begin, work_return, task_abort;
      rewrite Htk, ?Hb, Hi; eauto.
  - exists WaitForGang. simpl. unfold wait_for_gang. rewrite Hblk, Htk, Hb.
    assert (Hbench : forall i wk, gang_workers (gang w) !! i = Some wk ->
              (_active_workers (gang w) <= Z.of_nat i)%Z -> station wk = WAITING).
    { intros i wk Hi Hge. destruct (decide (station wk = WAITING)) as [|Hne]; [easy|].
      pose proof (bench_waits w Hw i wk Hi Hne). lia. }
    assert (Hin : forall i wk, gang_workers (gang w) !! i = Some wk ->
              (Z.of_nat i < _active_workers (gang w))%Z ->
              allowed (_status t) (station wk) = true
              /\ movable (_status t) (station wk) = false).
    { intros i wk Hi Hlt. split; [now apply (Hall i)|now apply (Hnone i)]. }
    assert (Hwait : forall s, _status t = s ->
              (forall st, allowed s st = true -> movable s st = false -> st = WAITING) ->
              all_waiting (gang_workers (gang w)) = true).
    { intros s Hs Honly. apply all_waiting_lookup. intros i wk Hi.
      destruct (Z.lt_ge_cases (Z.of_nat i) (_active_workers (gang w))) as [Hlt|Hge];
        [|now apply (Hbench i)].
      destruct (Hin i wk Hi Hlt) as [Ha Hm]. rewrite Hs in Ha, Hm. now apply Honly. }
    destruct Hrun as [H|[H|[H|H]]]; rewrite H in *.
    + (* ACTIVE: some worker has not returned *)
      rewrite (Hwait ACTIVE eq_refl) in Hact; [now specialize (Hact eq_refl)|].
      now intros [].
    + (* YIELDING: every worker is parked or has returned *)
      rewrite (proj2 (all_stopped_lookup _)); [eauto|].
      intros i wk Hi. specialize (Hnone i wk Hi).
      unfold stopped. destruct (station wk); try discriminate; reflexivity.
    + (* ABORTING: every worker is back at its station *)
      rewrite (Hwait ABORTING eq_refl); [eauto|]. now intros [].
    + (* COMPLETING *)
      rewrite (Hwait COMPLETING eq_refl); [eauto|]. now intros [].
Qed.

(** Every move of a worker brings the round closer to its end. *)
Lemma move_work_left (m : Move) (w w' : World) :
  move m w = Some w' -> m <> WaitForGang ->
  (work_left (gang_workers (gang w')) < work_left (gang_workers (gang w)))%nat.
Proof.
  intros Hm Hne. destruct m as [i|i|i|i|]; simpl in Hm; [| | | |now destruct Hne].
  - unfold work_begin in Hm. destruct (_task (gang w)); [|discriminate].
    destruct (gang_workers (gang w) !! i) as [[st k]|] eqn:Hi; [|discriminate].
    destruct st; try discriminate. injection Hm as <-. simpl.
    pose proof (work_left_insert _ _ _ (mkWorker WORKING (S k)) Hi). simpl in *. lia.
  - destruct (work_return_cases i w w' Hm) as (q & t & n & _ & _ & Hi & Hcases).
    simpl in Hcases.
    pose proof (work_left_insert _ _ _ (mkWorker WAITING n) Hi) as Hl. simpl in Hl.
    destruct Hcases as [(_ & _ & ->)|[-> _]]; simpl; lia.
  - unfold task_yield in Hm. destruct (_task (gang w)); [|discriminate].
    destruct (bound_status w) as [[]|]; try discriminate.
    destruct (gang_workers (gang w) !! i) as [[st k]|] eqn:Hi; [|discriminate].
    destruct st; try discriminate. injection Hm as <-. simpl.
    pose proof (work_left_insert _ _ _ (mkWorker AT_YIELD k) Hi). simpl in *. lia.
  - unfold task_abort in Hm. destruct (_task (gang w)); [|discriminate].
    destruct (bound_status w) as [[]|]; try discriminate.
    destruct (gang_workers (gang w) !! i) as [[st k]|] eqn:Hi; [|discriminate].
    destruct st; try discriminate; injection Hm as <-; simpl;
      pose proof (work_left_insert _ _ _ (mkWorker WAITING k) Hi); simpl in *; lia.
Qed.

(** Every round can be brought to its end by moves of the workers and the
    barrier alone, in at most one move more than the work left. *)
Lemma round_ends (k : nat) (w : World) :
  (work_left (gang_workers (gang w)) <= k)%nat ->
  consistent w -> overseer_waits (gang w) = true ->
  exists (ms : list Move) (w' : World),
    run (inr <$> ms) w = Some w' /\ rtc round_step w w'
    /\ overseer_waits (gang w') = false
    /\ (length ms <= S k)%nat.
Proof.
  revert w. induction k as [|k IH]; intros w Hk Hw Hblk;
    destruct (round_progress w Hw Hblk) as (m & w1 & Hm);
    pose proof (binding w Hw) as H5;
    (destruct (_task (gang w)) as [p|] eqn:Htk; [clear H5|destruct H5; congruence]);
    assert (Hstep : round_step w w1) by (split; [exact Hblk|now exists (inr m)]);
    destruct (fire_in_round (inr m) w w1 p Hw Hblk Htk Hm)
      as [([= ->] & _ & Hblk1 & _)|(Hne & _ & _ & Hblk1)].
  - exists [WaitForGang], w1. simpl in *. rewrite Hm.
    repeat split; [now apply rtc_once|exact Hblk1|lia].
  - assert (m <> WaitForGang) as Hne' by congruence.
    pose proof (move_work_left m w w1 Hm Hne'). lia.
  - exists [WaitForGang], w1. simpl in *. rewrite Hm.
    repeat split; [now apply rtc_once|exact Hblk1|lia].
  - assert (m <> WaitForGang) as Hne' by congruence.
    pose proof (move_work_left m w w1 Hm Hne') as Hlt.
    pose proof (fire_consistent (inr m) w w1 Hw Hm) as Hw1.
    destruct (IH w1 ltac:(lia) Hw1 Hblk1) as (ms & w2 & Hrun & Hsteps & Hdone & Hlen).
    exists (m :: ms), w2. simpl in *. rewrite Hm.
    repeat split; [exact Hrun|now apply rtc_l with w1|exact Hdone|lia].
Qed.

End Rounds.

Section StartTask.
Import YieldingWorkgroup.



End StartTask.

(** ** Rebinding a task *)

Section Rebinding.
Import YieldingWorkgroup TaskBinding.

Example bind_unbind_bind :
  set_gangs [Some 7%nat; None; Some 8%nat] (new_task 0)
  = Returns (mkTask INACTIVE (Some 8%nat) 0 0).
Proof. reflexivity. Qed.

Example bind_twice :
  set_gangs [Some 7%nat; Some 7%nat] (new_task 0)
  = Fatal "Clobber without intermediate reset?".
Proof. reflexivity. Qed.

Lemma last_after {A : Type} (x d : A) (l : list A) :
  List.last (x :: l) d = List.last l x.
Proof.
  revert x d. induction l as [|y l IH]; intros x d; [reflexivity|].
  change (List.last (x :: y :: l) d) with (List.last (y :: l) d).
  now rewrite (IH y d), (IH y x).
Qed.

(** X1. A run of [set_gang] calls goes through exactly when no non-null
    gang reference is written over another non-null one; it then leaves the
    last reference written in the task and does not touch the status or the
    sizes. Otherwise the run halts with the assertion of [set_gang]. *)
Theorem set_gangs_no_clobber
    (gangs : list GangPtr) (t : YieldingFlexibleGangTask) :
  set_gangs gangs t
  = if no_clobber (gang_of t) gangs
    then Returns (mkTask (_status t) (List.last gangs (gang_of t))
                         (_actual_size t) (_requested_size t))
    else Fatal "Clobber without intermediate reset?".
Proof.
  revert t. induction gangs as [|g rest IH]; intros t.
  - simpl. now destruct t.
  - cbn [set_gangs no_clobber]. unfold set_gang, gang_of in *. unroll.
    destruct (is_NULL (_gang t) || is_NULL g) eqn:Hok; cbn [andb]; [|reflexivity].
    rewrite IH. cbn [_gang _status _actual_size _requested_size].
    destruct (no_clobber g rest); [|reflexivity].
    now rewrite last_after.
Qed.

End Rebinding.

(** ** The thread cache index *)

Section ThreadCache.
Import ThreadLocalStorage.

Lemma pd_cache_size_pow2 : _pd_cache_size = 2 ^ 9.
Proof. reflexivity. Qed.

Example pd_cache_index_of_block :
  pd_cache_index 0x7f00deadbe00 = pd_cache_index 0x7f00deadbfff.
Proof. reflexivity. Qed.

Lemma pd_cache_index_low_bits (raw_id k : Z) :
  0 <= k < 9 ->
  Z.testbit (pd_cache_index raw_id) k
  = xorb (Z.testbit raw_id (k + 9)) (Z.testbit raw_id (k + 20)).
Proof.
  intros Hk. unfold pd_cache_index. rewrite pd_cache_size_pow2.
  rewrite Z.mod_pow2_bits_low by lia.
  rewrite Z.lxor_spec, !Z.shiftr_spec by lia. reflexivity.
Qed.

(** X2. The index that [pd_cache_index] computes always lies inside the
    cache, 0 <= index < _pd_cache_size, and each of its nine bits is the
    exclusive or of two bits of the thread id: bit k of the index is bit
    k+9 xor bit k+20 of [raw_id]. *)
Theorem pd_cache_index_bits (raw_id : Z) :
  0 <= pd_cache_index raw_id < _pd_cache_size
  /\ forall k, 0 <= k < 9 ->
       Z.testbit (pd_cache_index raw_id) k
       = xorb (Z.testbit raw_id (k + 9)) (Z.testbit raw_id (k + 20)).
Proof.
  split.
  - unfold pd_cache_index. rewrite pd_cache_size_pow2.
    apply Z.mod_pos_bound. reflexivity.
  - intros k Hk. now apply pd_cache_index_low_bits.
Qed.

Lemma pd_cache_index_high_bits (raw_id k : Z) :
  9 <= k -> Z.testbit (pd_cache_index raw_id) k = false.
Proof.
  intros Hk. unfold pd_cache_index. rewrite pd_cache_size_pow2.
  apply Z.mod_pow2_bits_high. lia.
Qed.

(** X3. Two thread ids that agree on bits 9 to 28 get the same cache slot:
    the low nine bits of the id and the bits from 29 up play no part. *)
Theorem pd_cache_index_same_slot (a b : Z) :
  (forall k, 9 <= k < 29 -> Z.testbit a k = Z.testbit b k) ->
  pd_cache_index a = pd_cache_index b.
Proof.
  intros Hbits. apply Z.bits_inj'. intros k Hk.
  destruct (Z.lt_ge_cases k 9) as [Hlow|Hhigh].
  - rewrite !pd_cache_index_low_bits by lia.
    rewrite (Hbits (k + 9)), (Hbits (k + 20)) by lia. reflexivity.
  - now rewrite !pd_cache_index_high_bits.
Qed.

Lemma pd_cache_index_same_slot_witness :
  pd_cache_index 512 = pd_cache_index (512 + 2 ^ 29 + 5).
Proof.
  apply (pd_cache_index_same_slot 512 (512 + 2 ^ 29 + 5)).
  intros k Hk.
  assert (Hcases : k = 9 \/ k = 10 \/ k = 11 \/ k = 12 \/ k = 13 \/ k = 14
                   \/ k = 15 \/ k = 16 \/ k = 17 \/ k = 18 \/ k = 19 \/ k = 20
                   \/ k = 21 \/ k = 22 \/ k = 23 \/ k = 24 \/ k = 25 \/ k = 26
                   \/ k = 27 \/ k = 28) by lia.
  repeat (destruct Hcases as [->|Hcases]; [reflexivity|]). now subst k.
Defined.

End ThreadCache.

(** ** Loading KERNEL32.DLL *)

Section KernelDLL.
Import ToolHelp.

Lemma held_app (calls calls' : list SysCall) (refs : list HMODULE) :
  held (calls ++ calls') refs
  = match held calls refs with
    | Some refs' => held calls' refs'
    | None => None
    end.
Proof.
  revert refs. induction calls as [|c calls IH]; intros refs; [reflexivity|].
  destruct c as [h|h]; simpl.
  - apply IH.
  - destruct refs as [|r refs]; [reflexivity|].
    destruct (r =? h); [apply IH|reflexivity].
Qed.

Lemma loadDLL_balanced (loaded : HMODULE) (s s' : State) (h : HMODULE) :
  balanced s -> loadDLL loaded s = Returns (h, s') ->
  balanced s' /\ h = kernelDLL s' /\ h <> 0.
Proof.
  unfold balanced, loadDLL. intros Hs Hl. unroll.
  destruct (kernelDLL s =? 0) eqn:Hk; simpl in Hl.
  - destruct (loaded =? 0) eqn:Hz; simpl in Hl; [discriminate|].
    injection Hl as <- <-. simpl. rewrite held_app, Hs, Hz. simpl. rewrite Hz.
    apply Z.eqb_neq in Hz. auto.
  - rewrite Hk in Hl. simpl in Hl. injection Hl as <- <-.
    rewrite Hk. apply Z.eqb_neq in Hk. auto.
Qed.

Lemma unloadDLL_balanced (s : State) :
  balanced s -> balanced (unloadDLL s) /\ kernelDLL (unloadDLL s) = 0.
Proof.
  unfold balanced, unloadDLL. intros Hs.
  destruct (kernelDLL s =? 0) eqn:Hk; simpl.
  - rewrite Hk. apply Z.eqb_eq in Hk. auto.
  - rewrite held_app, Hs. simpl. now rewrite Z.eqb_refl.
Qed.

(** X4. Whatever [loadDLL] and [unloadDLL] calls a client makes, and
    whatever modules [LoadLibrary] returns, as long as no assertion fires:
    [FreeLibrary] is only ever called on the module that is held, at most
    one module reference is held at any time, and one is held exactly when
    [kernelDLL] is not [NULL], namely [kernelDLL] itself. *)
Theorem kernelDLL_reference_balanced (ops : list Op) (s : State) :
  run ops start = Returns s ->
  held (syscalls s) [] = Some (if kernelDLL s =? 0 then [] else [kernelDLL s]).
Proof.
  assert (Hgen : forall s0, balanced s0 -> run ops s0 = Returns s -> balanced s).
  { induction ops as [|op ops IH]; intros s0 H0 Hr; simpl in Hr.
    - now injection Hr as <-.
    - destruct op as [loaded|].
      + unroll. destruct (loadDLL loaded s0) as [[h s1]|msg] eqn:Hl; [|discriminate].
        apply (IH s1); [|exact Hr].
        now destruct (loadDLL_balanced loaded s0 s1 h H0 Hl).
      + apply (IH (unloadDLL s0)); [|exact Hr].
        now destruct (unloadDLL_balanced s0 H0). }
  apply Hgen. reflexivity.
Qed.

Lemma kernelDLL_reference_balanced_witness :
  held (syscalls (mkState 0 [LoadLibrary 64; FreeLibrary 64; LoadLibrary 80;
                               FreeLibrary 80])) []
  = Some [].
Proof.
  apply (kernelDLL_reference_balanced
           [Load 64; Load 72; Unload; Unload; Load 80; Unload]
           (mkState 0 [LoadLibrary 64; FreeLibrary 64; LoadLibrary 80;
                       FreeLibrary 80])).
  reflexivity.
Defined.

(** X5. Once [loadDLL] has returned a module, it returns the same module on
    every further call without calling [LoadLibrary] again, whatever
    [LoadLibrary] would have returned; and it never returns [NULL]: a
    failed [LoadLibrary] stops at the assertion. *)
Theorem loadDLL_is_cached (loaded again : HMODULE) (s s' : State) (h : HMODULE) :
  loadDLL loaded s = Returns (h, s') ->
  h <> 0
  /\ loadDLL again s' = Returns (h, s')
  /\ (kernelDLL s = 0 -> loadDLL 0 s = Fatal "kernelDLL != NULL").
Proof.
  unfold loadDLL. intros Hl. unroll.
  destruct (kernelDLL s =? 0) eqn:Hk; simpl in Hl.
  - destruct (loaded =? 0) eqn:Hz; simpl in Hl; [discriminate|].
    injection Hl as <- <-. simpl. rewrite Hz. simpl. rewrite Hz. simpl.
    apply Z.eqb_neq in Hz. auto.
  - rewrite Hk in Hl. simpl in Hl. injection Hl as <- <-.
    rewrite Hk. simpl. rewrite Hk. simpl. apply Z.eqb_neq in Hk.
    repeat split; auto. intros H0. contradiction.
Qed.

Lemma loadDLL_is_cached_witness :
  loadDLL 99 (mkState 64 [LoadLibrary 64]) = Returns (64, mkState 64 [LoadLibrary 64]).
Proof.
  apply (loadDLL_is_cached 64 99 start (mkState 64 [LoadLibrary 64]) 64 eq_refl).
Defined.

End KernelDLL.

(** ** The executable path of a command line *)

Section ExecutablePath.
Import ProcessImpl.

Implicit Types (s : list ascii) (c : ascii).

Lemma strchr_Some s c (i : nat) :
  strchr s c = Some i ->
  s !! i = Some c /\ forall j x, (j < i)%nat -> s !! j = Some x -> x <> c.
Proof.
  revert i. induction s as [|y s IH]; intros i H; simpl in H; [discriminate|].
  destruct (Ascii.eqb y c) eqn:E.
  - injection H as <-. apply Ascii.eqb_eq in E. subst y. split; [reflexivity|].
    intros j x Hj. lia.
  - destruct (strchr s c) as [k|]; [|discriminate]. injection H as <-.
    destruct (IH k eq_refl) as [Hk Hmin]. split; [exact Hk|].
    intros [|j] x Hj Hx; simpl in Hx.
    + injection Hx as <-. intros ->. rewrite Ascii.eqb_refl in E. discriminate.
    + apply (Hmin j x); [lia|exact Hx].
Qed.

Lemma strchr_None s c : strchr s c = None -> c ∉ s.
Proof.
  induction s as [|y s IH]; simpl; intros H.
  - apply not_elem_of_nil.
  - destruct (Ascii.eqb y c) eqn:E; [discriminate|].
    destruct (strchr s c); [discriminate|].
    apply not_elem_of_cons. split; [|now apply IH].
    intros ->. rewrite Ascii.eqb_refl in E. discriminate.
Qed.

Lemma strchr_drop s c (p k : nat) :
  strchr s c = Some p -> (k <= p)%nat -> strchr (drop k s) c = Some (p - k)%nat.
Proof.
  revert p k. induction s as [|y s IH]; intros p k H Hk; simpl in H; [discriminate|].
  destruct k as [|k].
  - rewrite drop_0, Nat.sub_0_r. exact H.
  - destruct (Ascii.eqb y c); [injection H as <-; lia|].
    destruct (strchr s c) as [q|] eqn:Hq; [|discriminate]. injection H as <-.
    simpl. apply IH; [reflexivity|lia].
Qed.

Lemma strchr_take s c (p : nat) : strchr s c = Some p -> strchr (take p s) c = None.
Proof.
  revert p. induction s as [|y s IH]; intros p H; simpl in H; [discriminate|].
  destruct (Ascii.eqb y c) eqn:E; [now injection H as <-|].
  destruct (strchr s c) as [q|] eqn:Hq; [|discriminate]. injection H as <-.
  simpl. rewrite E, (IH q eq_refl). reflexivity.
Qed.

Lemma strchr_from_here s c (p k : nat) :
  strchr s c = Some p -> (k <= p)%nat -> strchr_from s k c = Some p.
Proof.
  intros H Hk. unfold strchr_from. rewrite (strchr_drop s c p k H Hk). simpl.
  f_equal. lia.
Qed.

Example quoted_path_with_a_space :
  extractExecutablePath
    (quote :: list_ascii_of_string "C:\Program Files\a.exe" ++ [quote; space; "x"%char])
  = Some (quote :: list_ascii_of_string "C:\Program").
Proof. reflexivity. Qed.

(** The three ways out of [extractExecutablePath] give one result. *)
Lemma extractExecutablePath_ways_out (source : list ascii) :
  extractExecutablePath source
  = Some (from_option (fun p => take p source) source (strchr source space)).
Proof.
  unfold extractExecutablePath.
  destruct (strchr source space) as [p|] eqn:Hp; [|reflexivity].
  destruct (strchr source quote) as [r|] eqn:Hr; [|reflexivity].
  destruct (p <? r)%nat eqn:Hlt; [reflexivity|]. apply Nat.ltb_ge in Hlt.
  rewrite (strchr_from_here source quote r r Hr (Nat.le_refl r)). simpl.
  now rewrite (strchr_from_here source space p r Hp Hlt).
Qed.

(** X6. For a source that is a string (a pointer that is not [NULL]), the
    result of [extractExecutablePath] is always the source cut at its first
    space, or the whole source when it has no space. This holds also when
    the first space lies inside quotes: the search for the closing quote
    starts at the opening quote and finds it again, so the pointer passed
    on to the last [strchr] is never [NULL] and the space it goes on to is
    the first one. A [NULL] source, which [selectProcessFlag] passes on
    unchecked, reaches the first [strchr] and is outside the model. *)
Theorem extractExecutablePath_cuts_at_first_space (source : list ascii) :
  extractExecutablePath source
  = Some (match strchr source space with
          | Some p => take p source
          | None => source
          end).
Proof.
  rewrite extractExecutablePath_ways_out.
  now destruct (strchr source space).
Qed.

(** X7. The result of [extractExecutablePath] is a prefix of the source
    that holds no space, what it leaves off starts with a space, and a
    second application changes nothing. *)
Theorem extractExecutablePath_prefix (source : list ascii) :
  exists path rest,
    extractExecutablePath source = Some path
    /\ source = (path ++ rest)%list
    /\ (space ∉ path)
    /\ (rest = [] \/ exists rest', rest = space :: rest')
    /\ extractExecutablePath path = Some path.
Proof.
  rewrite extractExecutablePath_ways_out.
  destruct (strchr source space) as [p|] eqn:Hp; cbn [from_option].
  - exists (take p source), (drop p source).
    split; [reflexivity|]. split; [now rewrite take_drop|].
    pose proof (strchr_take source space p Hp) as Hnone.
    split; [now apply strchr_None|]. split.
    + right. destruct (strchr_Some source space p Hp) as [Hat _].
      exists (drop (S p) source). now apply drop_S.
    + rewrite extractExecutablePath_ways_out. now rewrite Hnone.
  - exists source, []. split; [reflexivity|]. split; [now rewrite app_nil_r|].
    split; [now apply strchr_None|]. split; [now left|].
    rewrite extractExecutablePath_ways_out. now rewrite Hp.
Qed.

Lemma strrchr_Some s c (i : nat) :
  strrchr s c = Some i ->
  s !! i = Some c /\ strchr (drop (S i) s) c = None.
Proof.
  revert i. induction s as [|y s IH]; intros i H; simpl in H; [discriminate|].
  destruct (strrchr s c) as [k|] eqn:Hk.
  - injection H as <-. simpl. now apply IH.
  - destruct (Ascii.eqb y c) eqn:E; [|discriminate]. injection H as <-.
    apply Ascii.eqb_eq in E. subst y. split; [reflexivity|].
    simpl. rewrite drop_0. clear IH.
    induction s as [|z s IHs]; [reflexivity|]. simpl in *.
    destruct (strrchr s c); [discriminate|].
    destruct (Ascii.eqb z c); [discriminate|]. now rewrite IHs.
Qed.

Lemma strrchr_found s c (p : nat) :
  strchr s c = Some p -> exists q, strrchr s c = Some q.
Proof.
  revert p. induction s as [|y s IH]; intros p H; simpl in *; [discriminate|].
  destruct (Ascii.eqb y c) eqn:E.
  - destruct (strrchr s c); eauto.
  - destruct (strchr s c) as [k|]; [|discriminate].
    destruct (IH k eq_refl) as [q ->]. eauto.
Qed.

Example search_path_of_a_full_name :
  search_path_arguments (list_ascii_of_string "C:\bin\a.exe")
  = Some (Some (list_ascii_of_string "C:\bin"), list_ascii_of_string "a.exe").
Proof. reflexivity. Qed.

(** X8. The split of an executable path for [SearchPath] always succeeds
    and loses nothing: the file name holds no backslash, and either the
    directory is [NULL] and the name is the whole path, or directory,
    backslash and name make up the path again. *)
Theorem search_path_arguments_split (exe : list ascii) :
  exists dir name,
    search_path_arguments exe = Some (dir, name)
    /\ (backslash ∉ name)
    /\ match dir with
       | None => exe = name
       | Some d => exe = (d ++ backslash :: name)%list
       end.
Proof.
  unfold search_path_arguments.
  destruct (strchr exe backslash) as [p|] eqn:Hp.
  - destruct (strrchr_found exe backslash p Hp) as [q Hq]. rewrite Hq. simpl.
    destruct (strrchr_Some exe backslash q Hq) as [Hat Hnone].
    exists (Some (take q exe)), (drop (S q) exe).
    split; [reflexivity|]. split; [now apply strchr_None|].
    rewrite <- (drop_S exe backslash q Hat). now rewrite take_drop.
  - exists None, exe. split; [reflexivity|]. split; [now apply strchr_None|reflexivity].
Qed.

End ExecutablePath.

(** ** The message of an operating system error *)

Section ErrorMessage.
Import ProcessImpl.

Lemma drop_final_spec (c : Z) (msg : list Z) (n : nat) :
  (1 <= n <= length msg)%nat ->
  exists b : bool,
    drop_final c msg n = Some (if b then (n - 1)%nat else n)
    /\ take n msg = (take (if b then (n - 1)%nat else n) msg ++ dropped b c)%list.
Proof.
  intros Hn. unfold drop_final.
  destruct (msg !! (n - 1)%nat) as [last|] eqn:Hlast.
  - simpl. destruct (last =? c) eqn:E.
    + exists true. split; [reflexivity|]. apply Z.eqb_eq in E. subst last.
      replace n with (S (n - 1)) at 1 by lia. now apply take_S_r.
    + exists false. split; [reflexivity|]. simpl. now rewrite app_nil_r.
  - apply lookup_ge_None in Hlast. lia.
Qed.

Lemma wcs_insert (msg : list Z) (k : nat) :
  (k < length msg)%nat ->
  Forall (fun c => c <> 0) (take k msg) ->
  wcs (<[k := 0]> msg) = take k msg.
Proof.
  revert k. induction msg as [|c msg IH]; intros k Hk Hnz; simpl in Hk; [lia|].
  destruct k as [|k]; simpl.
  - reflexivity.
  - simpl in Hnz. apply Forall_cons in Hnz as [Hc Hnz].
    rewrite (proj2 (Z.eqb_neq c 0) Hc). f_equal. apply IH; [lia|exact Hnz].
Qed.

Example access_denied :
  os_error_message 17 (wide "Access is denied." ++ [0; 0; 0])%list
  = Some (16%nat, (wide "Access is denied" ++ [0; 0; 0; 0])%list).
Proof. reflexivity. Qed.

(** X9. When [FormatMessageW] reports [n] characters in a buffer that has
    room for them and the NUL after them, [os_error_message] stays inside
    the buffer. A message of three characters or fewer is returned as it is;
    a longer one loses at most three characters, keeps at least one, and is
    cut by a NUL written at the length returned. *)
Theorem os_error_message_bounds (n : nat) (msg : list Z) :
  (n < length msg)%nat ->
  exists n',
    os_error_message n msg
    = Some (n', if (3 <? n)%nat then <[n' := 0]> msg else msg)
    /\ (n' <= n <= n' + 3)%nat
    /\ ((n <= 3)%nat -> n' = n)
    /\ ((3 < n)%nat -> (1 <= n')%nat).
Proof.
  intros Hlen. unfold os_error_message.
  destruct (3 <? n)%nat eqn:Hn.
  - apply Nat.ltb_lt in Hn.
    destruct (drop_final_spec LF msg n ltac:(lia)) as (b1 & -> & _). simpl.
    set (n1 := if b1 then (n - 1)%nat else n).
    assert (Hn1 : (n - 1 <= n1 <= n)%nat) by (unfold n1; destruct b1; lia).
    destruct (drop_final_spec CR msg n1 ltac:(lia)) as (b2 & -> & _). simpl.
    set (n2 := if b2 then (n1 - 1)%nat else n1).
    assert (Hn2 : (n1 - 1 <= n2 <= n1)%nat) by (unfold n2; destruct b2; lia).
    destruct (drop_final_spec DOT msg n2 ltac:(lia)) as (b3 & -> & _). simpl.
    set (n3 := if b3 then (n2 - 1)%nat else n2).
    assert (Hn3 : (n2 - 1 <= n3 <= n2)%nat) by (unfold n3; destruct b3; lia).
    rewrite (proj2 (Nat.ltb_lt n3 (length msg))) by lia.
    exists n3. repeat split; lia.
  - apply Nat.ltb_ge in Hn. exists n. repeat split; lia.
Qed.

Lemma os_error_message_bounds_witness :
  exists n', os_error_message 5 [72; 105; 46; 13; 10; 0] = Some (n', <[n' := 0]> [72; 105; 46; 13; 10; 0]).
Proof.
  destruct (os_error_message_bounds 5 [72; 105; 46; 13; 10; 0]) as (n' & H & _).
  - simpl. lia.
  - exists n'. exact H.
Defined.

(** X10. For a message of more than three characters, none of them NUL,
    the text left in the buffer is the text [FormatMessageW] wrote without
    its end: what is dropped is at most one full stop, then at most one
    carriage return, then at most one line feed, and the value returned is
    the length of the text that is left. *)
Theorem os_error_message_text (n : nat) (msg : list Z) :
  (n < length msg)%nat ->
  (3 < n)%nat ->
  Forall (fun c => c <> 0) (take n msg) ->
  exists n' msg' (dot cr lf : bool),
    os_error_message n msg = Some (n', msg')
    /\ length (wcs msg') = n'
    /\ take n msg
       = (wcs msg' ++ dropped dot DOT ++ dropped cr CR ++ dropped lf LF)%list.
Proof.
  intros Hlen Hn Hnz. unfold os_error_message.
  rewrite (proj2 (Nat.ltb_lt 3 n) Hn).
  destruct (drop_final_spec LF msg n ltac:(lia)) as (b1 & -> & E1). simpl.
  set (n1 := if b1 then (n - 1)%nat else n) in *.
  assert (Hn1 : (n - 1 <= n1 <= n)%nat) by (unfold n1; destruct b1; lia).
  destruct (drop_final_spec CR msg n1 ltac:(lia)) as (b2 & -> & E2). simpl.
  set (n2 := if b2 then (n1 - 1)%nat else n1) in *.
  assert (Hn2 : (n1 - 1 <= n2 <= n1)%nat) by (unfold n2; destruct b2; lia).
  destruct (drop_final_spec DOT msg n2 ltac:(lia)) as (b3 & -> & E3). simpl.
  set (n3 := if b3 then (n2 - 1)%nat else n2) in *.
  assert (Hn3 : (n2 - 1 <= n3 <= n2)%nat) by (unfold n3; destruct b3; lia).
  rewrite (proj2 (Nat.ltb_lt n3 (length msg))) by lia.
  assert (Htext : wcs (<[n3 := 0]> msg) = take n3 msg).
  { apply wcs_insert; [lia|].
    replace (take n3 msg) with (take n3 (take n msg))
      by (rewrite take_take; f_equal; lia).
    now apply Forall_take. }
  exists n3, (<[n3 := 0]> msg), b3, b2, b1. split; [reflexivity|].
  rewrite Htext. split.
  - rewrite length_take. lia.
  - rewrite E1, E2, E3. now rewrite <- !app_assoc.
Qed.

Lemma os_error_message_text_witness :
  exists n' msg', os_error_message 5 [72; 105; 46; 13; 10; 0] = Some (n', msg')
                  /\ length (wcs msg') = n'.
Proof.
  destruct (os_error_message_text 5 [72; 105; 46; 13; 10; 0])
    as (n' & msg' & _ & _ & _ & H & Hl & _).
  - simpl. lia.
  - lia.
  - repeat constructor; discriminate.
  - exists n', msg'. now split.
Defined.

Lemma lookup_after (body tail : list Z) (k : nat) :
  (body ++ tail)%list !! (length body + k)%nat = tail !! k.
Proof. rewrite lookup_app_r by lia. f_equal. lia. Qed.

(** X11. A message that ends in full stop, carriage return and line feed,
    as the system writes them, comes back without the three, whatever
    stands before them, as long as something does: the value returned is
    the length of that text and the NUL is written right after it. When
    nothing stands before them the three characters are left as they are. *)
Theorem os_error_message_drops_dot_cr_lf (body rest : list Z) :
  body <> [] ->
  os_error_message (length body + 3) (body ++ [DOT; CR; LF; 0] ++ rest)%list
  = Some (length body, (body ++ [0; CR; LF; 0] ++ rest)%list)
  /\ os_error_message 3 ([DOT; CR; LF; 0] ++ rest)%list
     = Some (3%nat, ([DOT; CR; LF; 0] ++ rest)%list).
Proof.
  intros Hbody. split; [|reflexivity].
  assert (Hlen : (1 <= length body)%nat) by (destruct body; [easy|simpl; lia]).
  unfold os_error_message, drop_final.
  rewrite (proj2 (Nat.ltb_lt 3 (length body + 3))) by lia.
  replace (length body + 3 - 1)%nat with (length body + 2)%nat by lia.
  rewrite lookup_after. simpl.
  replace (length body + 2 - 1)%nat with (length body + 1)%nat by lia.
  rewrite lookup_after. simpl.
  replace (length body + 1 - 1)%nat with (length body + 0)%nat by lia.
  rewrite lookup_after. simpl.
  rewrite (proj2 (Nat.ltb_lt _ _)) by (rewrite length_app; simpl; lia).
  rewrite insert_app_r, Nat.add_0_r. reflexivity.
Qed.

Lemma os_error_message_drops_dot_cr_lf_witness :
  os_error_message 5 [72; 105; 46; 13; 10; 0] = Some (2%nat, [72; 105; 0; 13; 10; 0]).
Proof.
  apply (proj1 (os_error_message_drops_dot_cr_lf [72; 105] [] ltac:(discriminate))).
Defined.

End ErrorMessage.

(** ** The kind of an executable file *)

Section ExecutableKind.
Import ProcessImpl.

Lemma read_two (file buffer : list Z) (pos : nat) :
  (pos + 2 <= length file)%nat ->
  exists rest,
    _read (mkFile file pos) buffer 2
    = (byte_at file pos :: byte_at file (S pos) :: rest, mkFile file (pos + 2)).
Proof.
  intros Hlen. unfold _read. simpl.
  destruct (drop pos file) as [|b0 [|b1 tail]] eqn:Hd.
  - apply (f_equal length) in Hd. rewrite length_drop in Hd. simpl in Hd. lia.
  - apply (f_equal length) in Hd. rewrite length_drop in Hd. simpl in Hd. lia.
  - exists (drop 2 buffer). simpl. unfold byte_at.
    assert (H0 : file !! pos = Some b0).
    { rewrite <- (Nat.add_0_r pos), <- lookup_drop, Hd. reflexivity. }
    assert (H1 : file !! S pos = Some b1).
    { replace (S pos) with (pos + 1)%nat by lia.
      rewrite <- lookup_drop, Hd. reflexivity. }
    now rewrite H0, H1.
Qed.

Lemma byte_at_0 (a : Z) (l : list Z) : byte_at (a :: l) 0 = a.
Proof. reflexivity. Qed.

Lemma byte_at_1 (a b : Z) (l : list Z) : byte_at (a :: b :: l) 1 = b.
Proof. reflexivity. Qed.

Lemma read_past_the_end (file buffer : list Z) (pos : nat) :
  (length file <= pos)%nat ->
  _read (mkFile file pos) buffer 2 = (buffer, mkFile file (pos + 0)).
Proof.
  intros Hlen. unfold _read. simpl. now rewrite drop_ge by lia.
Qed.

Lemma headerLoc_little_endian (b0 b1 : Z) (rest : list Z) :
  0 <= b0 < 256 -> 0 <= b1 ->
  headerLoc (b0 :: b1 :: rest) = b0 + 256 * b1.
Proof.
  intros H0 H1.
  change (headerLoc (b0 :: b1 :: rest)) with (Z.lor (Z.shiftl b1 8) b0).
  assert (Hland : Z.land (Z.shiftl b1 8) b0 = 0).
  { apply Z.bits_inj'. intros k Hk. rewrite Z.land_spec, Z.bits_0.
    destruct (Z.lt_ge_cases k 8) as [Hlow|Hhigh].
    - now rewrite Z.shiftl_spec_low.
    - replace b0 with (b0 mod 2 ^ 8) by (apply Z.mod_small; lia).
      rewrite Z.mod_pow2_bits_high by lia. apply andb_false_r. }
  pose proof (Z.add_lor_land (Z.shiftl b1 8) b0) as Hadd.
  rewrite Hland in Hadd. rewrite Z.shiftl_mul_pow2 in Hadd |- * by lia.
  change (2 ^ 8) with 256 in Hadd |- *. lia.
Qed.

Example stub_with_PE_header :
  selectProcessFlag 8 3
    ([77; 90] ++ replicate 58 0 ++ [64; 0; 0; 0] ++ [80; 69; 0; 0])%list [0; 0]
  = 8.
Proof. reflexivity. Qed.

(** X12. For a file that [_open] could open, that starts with the bytes
    'M' 'Z', is at least 62 bytes long and holds two bytes at the offset
    its bytes 60 and 61 give (low byte first), [selectProcessFlag] returns
    DETACHED_PROCESS exactly when those two bytes are 'P' 'E', and 0
    otherwise. Only two bytes of the offset are read, so the header is
    looked for below 65536. *)
Theorem selectProcessFlag_detects_PE
    (DETACHED_PROCESS fd : Z) (file buffer : list Z) :
  0 < fd ->
  (62 <= length file)%nat ->
  byte_at file 0 = char_code "M" ->
  byte_at file 1 = char_code "Z" ->
  0 <= byte_at file 60 < 256 ->
  0 <= byte_at file 61 < 256 ->
  (header_offset file + 2 <= length file)%nat ->
  selectProcessFlag DETACHED_PROCESS fd file buffer
  = (if (byte_at file (header_offset file) =? char_code "P")
        && (byte_at file (S (header_offset file)) =? char_code "E")
     then DETACHED_PROCESS else 0)
  /\ Z.of_nat (header_offset file) < 65536.
Proof.
  intros Hfd Hlen HM HZ H60 H61 Hloc. split; [|unfold header_offset; lia].
  unfold selectProcessFlag. rewrite (proj2 (Z.ltb_lt 0 fd) Hfd).
  destruct (read_two file buffer 0 ltac:(lia)) as (r1 & ->). cbn iota zeta beta.
  rewrite byte_at_0, byte_at_1, HM, HZ, !Z.eqb_refl. cbn [andb].
  unfold _lseek. cbn [bytes]. change (Z.to_nat 60) with 60%nat.
  destruct (read_two file (char_code "M" :: char_code "Z" :: r1) 60 ltac:(lia))
    as (r2 & ->). cbn iota zeta beta.
  rewrite headerLoc_little_endian by lia. cbn [bytes].
  fold (header_offset file).
  destruct (read_two file (byte_at file 60 :: byte_at file 61 :: r2)
              (header_offset file) Hloc) as (r3 & ->). cbn iota zeta beta.
  now rewrite byte_at_0, byte_at_1.
Qed.

Lemma selectProcessFlag_detects_PE_witness :
  selectProcessFlag 8 3
    ([77; 90] ++ replicate 58 0 ++ [64; 0; 0; 0] ++ [80; 69; 0; 0])%list [0; 0]
  = 8.
Proof.
  apply (proj1 (selectProcessFlag_detects_PE 8 3
                  ([77; 90] ++ replicate 58 0 ++ [64; 0; 0; 0] ++ [80; 69; 0; 0])%list
                  [0; 0] eq_refl ltac:(simpl; lia) eq_refl eq_refl
                  ltac:(vm_compute; split; discriminate || reflexivity)
                  ltac:(vm_compute; split; discriminate || reflexivity)
                  ltac:(vm_compute; lia))).
Defined.

(** X13. A file of 60 bytes or fewer is never taken for a console
    program, whatever the local buffer held before the reads, although the
    code does not look at what [_read] returns: the reads behind the end of
    the file leave 'M' 'Z' in the buffer, which is not 'P' 'E'. A file that
    [_open] could not open gives 0 as well. *)
Theorem selectProcessFlag_short_file
    (DETACHED_PROCESS fd : Z) (file buffer : list Z) :
  (length file <= 60)%nat \/ fd <= 0 ->
  selectProcessFlag DETACHED_PROCESS fd file buffer = 0.
Proof.
  intros Hshort. unfold selectProcessFlag.
  destruct (0 <? fd) eqn:Hfd; [|reflexivity].
  destruct Hshort as [Hlen|Hle]; [|apply Z.ltb_lt in Hfd; lia].
  destruct (_read (mkFile file 0) buffer 2) as [b1 f1] eqn:Hr1.
  assert (Hf1 : bytes f1 = file).
  { unfold _read in Hr1. now injection Hr1 as <- <-. }
  destruct (byte_at b1 0 =? char_code "M") eqn:HM; [|reflexivity].
  destruct (byte_at b1 1 =? char_code "Z") eqn:HZ; [|reflexivity].
  cbn [andb]. apply Z.eqb_eq in HM, HZ.
  unfold _lseek. rewrite Hf1. change (Z.to_nat 60) with 60%nat.
  rewrite read_past_the_end by lia. cbn [bytes].
  assert (Hloc : headerLoc b1 = 23117).
  { unfold headerLoc. rewrite HM, HZ. reflexivity. }
  rewrite Hloc. rewrite read_past_the_end by (simpl; lia).
  rewrite HM. reflexivity.
Qed.

Lemma selectProcessFlag_short_file_witness :
  selectProcessFlag 8 3 [77] [80; 90] = 0.
Proof.
  apply (selectProcessFlag_short_file 8 3 [77] [80; 90]). left. simpl. lia.
Defined.

End ExecutableKind.

(** ** Creating a process *)

Section ProcessCreation.
Import ProcessCreate.

Ltac nonzero H :=
  repeat match type of H with
         | context [?h =? 0] =>
             match goal with
             | Hh : h <> 0 |- _ => rewrite (proj2 (Z.eqb_neq h 0) Hh) in H
             end
         end.

(** Runs the function to its end on the answers chosen so far. *)
Ltac run_to_end H :=
  repeat (cbv -[Z.eqb Z.lor] in H; nonzero H;
          change (0 =? 0) with true in H);
  injection H as <- <-.

Example everything_succeeds :
  create 1 2 fair_weather true false true
  = (100,
     [CreatePipe (Some (11, 12)); CreatePipe (Some (21, 22));
      CreatePipe (Some (31, 32)); GetStringChars cmd true;
      GetStringChars dir true; SetHandleInformation 12;
      SetHandleInformation 21; SetHandleInformation 31;
      SetHandleInformation 32; CreateProcessW 3 11 22 22 (Some (100, 101));
      CloseHandle 101; SetLongField in_fd 12; SetLongField out_fd 21;
      SetLongField err_fd 31; CloseHandle 11; CloseHandle 22;
      CloseHandle 32; ReleaseStringChars cmd; ReleaseStringChars dir]).
Proof. reflexivity. Qed.

Example second_pipe_fails :
  create 1 2 out_of_pipes true false true
  = (0, [CreatePipe (Some (11, 12)); CreatePipe None; Throw "CreatePipe";
         CloseHandle 12; CloseHandle 11]).
Proof. reflexivity. Qed.

(** The same when nothing is known of the handles: both outcomes of each
    test in [closeSafely] are followed. *)
Ltac either_way H :=
  repeat (cbv -[Z.eqb Z.lor] in H;
          change (0 =? 0) with true in H;
          try match type of H with
              | context [?h =? 0] => destruct (h =? 0)
              end);
  injection H as <- <-.

(** X14. Whatever the environment answers, as long as the handles it gives
    out are not null: when [Java_java_lang_ProcessImpl_create] returns 0,
    every handle of every pipe it created has been closed exactly once, no
    process was created and no descriptor object was written; when it
    returns a process handle, it has closed the thread handle and the
    child's ends of the three pipes, each once, and has stored the parent's
    ends in the three descriptor objects without closing them. *)
Theorem create_closes_what_it_opens
    (CREATE_NO_WINDOW CREATE_UNICODE_ENVIRONMENT : Z) (os : OS)
    (dir_given envBlock_given redirectErrorStream : bool)
    (ret : Z) (trace : list Effect) :
  sound os ->
  create CREATE_NO_WINDOW CREATE_UNICODE_ENVIRONMENT os
         dir_given envBlock_given redirectErrorStream = (ret, trace) ->
  (ret = 0 ->
   closed trace ≡ₚ pipe_handles trace
   /\ process_handles trace = [] /\ stored trace = [])
  /\ (ret <> 0 ->
      exists r1 w1 r2 w2 r3 w3 hThread,
        pipe_handles trace = [r1; w1; r2; w2; r3; w3]
        /\ process_handles trace = [ret; hThread]
        /\ closed trace = [hThread; r1; w2; w3]
        /\ stored trace = [(in_fd, w1); (out_fd, r2); (err_fd, r3)]).
Proof.
  intros Hsound Hrun.
  destruct os as [nt p1 p2 p3 c1 c2 c3 sel proc].
  destruct Hsound as (H1 & H2 & H3 & H4). simpl in H1, H2, H3, H4.
  assert (Hfail : forall tr, closed tr ≡ₚ pipe_handles tr ->
            process_handles tr = [] -> stored tr = [] ->
            (0 = 0 -> closed tr ≡ₚ pipe_handles tr
                      /\ process_handles tr = [] /\ stored tr = [])
            /\ (0 <> 0 -> exists r1 w1 r2 w2 r3 w3 hThread,
                  pipe_handles tr = [r1; w1; r2; w2; r3; w3]
                  /\ process_handles tr = [0; hThread]
                  /\ closed tr = [hThread; r1; w2; w3]
                  /\ stored tr = [(in_fd, w1); (out_fd, r2); (err_fd, r3)])).
  { intros tr Hc Hp Hs. split; [auto|intros Hne; now destruct Hne]. }
  destruct p1 as [[r1 w1]|];
    [destruct H1 as [Hr1 Hw1]
    |run_to_end Hrun; apply Hfail; cbn; (reflexivity || solve_Permutation)].
  destruct p2 as [[r2 w2]|];
    [destruct H2 as [Hr2 Hw2]
    |run_to_end Hrun; apply Hfail; cbn; (reflexivity || solve_Permutation)].
  destruct p3 as [[r3 w3]|];
    [destruct H3 as [Hr3 Hw3]
    |run_to_end Hrun; apply Hfail; cbn; (reflexivity || solve_Permutation)].
  destruct c1;
    [|run_to_end Hrun; apply Hfail; cbn; (reflexivity || solve_Permutation)].
  destruct dir_given;
    [destruct c2;
     [|run_to_end Hrun; apply Hfail; cbn; (reflexivity || solve_Permutation)]|];
  (destruct envBlock_given;
    [destruct c3;
     [|run_to_end Hrun; apply Hfail; cbn; (reflexivity || solve_Permutation)]|]);
  destruct redirectErrorStream;
  (destruct proc as [[hP hT]|];
    [destruct H4 as [HhP HhT]
    |run_to_end Hrun; apply Hfail; cbn; (reflexivity || solve_Permutation)]);
  run_to_end Hrun;
  (split; [intros Hret; contradiction|intros _; cbn; eauto 12]).
Qed.

Lemma create_closes_what_it_opens_witness :
  closed (snd (create 1 2 out_of_pipes true false true))
  ≡ₚ pipe_handles (snd (create 1 2 out_of_pipes true false true)).
Proof.
  apply (proj1 (create_closes_what_it_opens 1 2 out_of_pipes true false true
                  0 (snd (create 1 2 out_of_pipes true false true))
                  ltac:(repeat split; discriminate) eq_refl) eq_refl).
Defined.

(** X15. Whatever the environment answers, also null handles:
    [Java_java_lang_ProcessImpl_create] releases the characters of exactly
    the strings whose characters it obtained, once each and in the order it
    obtained them, on every way out. *)
Theorem create_releases_what_it_acquired
    (CREATE_NO_WINDOW CREATE_UNICODE_ENVIRONMENT : Z) (os : OS)
    (dir_given envBlock_given redirectErrorStream : bool) :
  released (snd (create CREATE_NO_WINDOW CREATE_UNICODE_ENVIRONMENT os
                        dir_given envBlock_given redirectErrorStream))
  = acquired (snd (create CREATE_NO_WINDOW CREATE_UNICODE_ENVIRONMENT os
                          dir_given envBlock_given redirectErrorStream)).
Proof.
  destruct (create _ _ _ _ _ _) as [ret trace] eqn:Hrun.
  destruct os as [nt p1 p2 p3 c1 c2 c3 sel proc].
  destruct p1 as [[r1 w1]|]; [|either_way Hrun; reflexivity].
  destruct p2 as [[r2 w2]|]; [|either_way Hrun; reflexivity].
  destruct p3 as [[r3 w3]|]; [|either_way Hrun; reflexivity].
  destruct c1; [|either_way Hrun; reflexivity].
  destruct dir_given;
    [destruct c2; [|either_way Hrun; reflexivity]|];
  (destruct envBlock_given;
    [destruct c3; [|either_way Hrun; reflexivity]|]);
  destruct redirectErrorStream;
  destruct proc as [[hP hT]|];
  either_way Hrun; reflexivity.
Qed.

(** X16. [Java_java_lang_ProcessImpl_create] raises at most one exception
    through [win32Error], for [CreatePipe] or for [CreateProcess], and none
    when it returns a process handle. *)
Theorem create_throws_at_most_once
    (CREATE_NO_WINDOW CREATE_UNICODE_ENVIRONMENT : Z) (os : OS)
    (dir_given envBlock_given redirectErrorStream : bool) :
  (thrown (snd (create CREATE_NO_WINDOW CREATE_UNICODE_ENVIRONMENT os
                       dir_given envBlock_given redirectErrorStream)) = []
   \/ (fst (create CREATE_NO_WINDOW CREATE_UNICODE_ENVIRONMENT os
                   dir_given envBlock_given redirectErrorStream) = 0
       /\ (thrown (snd (create CREATE_NO_WINDOW CREATE_UNICODE_ENVIRONMENT os
                               dir_given envBlock_given redirectErrorStream))
           = ["CreatePipe"%string]
           \/ thrown (snd (create CREATE_NO_WINDOW CREATE_UNICODE_ENVIRONMENT os
                                  dir_given envBlock_given redirectErrorStream))
              = ["CreateProcess"%string]))).
Proof.
  destruct (create _ _ _ _ _ _) as [ret trace] eqn:Hrun.
  destruct os as [nt p1 p2 p3 c1 c2 c3 sel proc].
  destruct p1 as [[r1 w1]|]; [|either_way Hrun; cbn; auto].
  destruct p2 as [[r2 w2]|]; [|either_way Hrun; cbn; auto].
  destruct p3 as [[r3 w3]|]; [|either_way Hrun; cbn; auto].
  destruct c1; [|either_way Hrun; cbn; auto].
  destruct dir_given;
    [destruct c2; [|either_way Hrun; cbn; auto]|];
  (destruct envBlock_given;
    [destruct c3; [|either_way Hrun; cbn; auto]|]);
  destruct redirectErrorStream;
  destruct proc as [[hP hT]|];
  either_way Hrun; cbn; auto.
Qed.

End ProcessCreation.

(** ** Callers of no known kind *)

Section UnknownCallers.
Import CMSLockVerifier.

(** X17. Once the runtime is fully initialised and parallel GC threads are
    configured, a caller that is none of VM thread, concurrent-GC thread,
    Java thread or GC task thread can never pass [assert_locked]: with a
    lock it reaches [ShouldNotReachHere], whoever owns the lock (the caller
    itself included) and whatever the secondary lock; without one it fails
    an assertion. *)
Theorem unclassified_thread_never_passes
    (rt : Runtime) (lock p_lock : option Mutex) :
  is_fully_initialized rt = true ->
  (ParallelGCThreads rt =? 0)%N = false ->
  is_VM_thread (current rt) = false ->
  is_ConcurrentGC_thread (current rt) = false ->
  is_Java_thread (current rt) = false ->
  is_GC_task_thread (current rt) = false ->
  halts (assert_locked rt lock p_lock)
  /\ (forall l, lock = Some l ->
        assert_locked rt lock p_lock = Fatal "ShouldNotReachHere()").
Proof.
  intros Hinit Hpar Hvm Hcgc Hjava Htask.
  unfold assert_locked.
  rewrite Hinit, Hpar, Hvm, Hcgc, Hjava, Htask. cbn [negb orb].
  split.
  - destruct lock as [l|]; [eexists; reflexivity|].
    destruct p_lock as [p|]; eexists; reflexivity.
  - intros l ->. reflexivity.
Qed.

Lemma unclassified_thread_never_passes_witness :
  assert_locked (runtime_of true other_t 4) (Some (held_by other_t))
                (Some unlocked)
  = Fatal "ShouldNotReachHere()".
Proof.
  apply (proj2 (unclassified_thread_never_passes
                  (runtime_of true other_t 4) (Some (held_by other_t))
                  (Some unlocked)
                  eq_refl eq_refl eq_refl eq_refl eq_refl eq_refl)
               (held_by other_t) eq_refl).
Defined.

End UnknownCallers.
